(** * The Beta-Binomial conjugacy notebook

    A shallow embedding of [lesson-bayes-conjugacy-mle/beta-binomial-model.ipynb]:
    the cell structure of the notebook, and the formulas of its markdown
    cells (Binomial likelihood, maximum likelihood estimate, Beta density
    in its two forms, Gamma function, posterior update, MAP) as definitions
    over the real numbers of the Standard Library. *)

From Stdlib Require Import Reals Lra Lia List String Ascii Bool Arith.
From Stdlib Require Import ClassicalEpsilon.
Import ListNotations.

(** ** The notebook as a list of cells *)

Module Notebook.

Open Scope string_scope.

(** A cell of the notebook.  A code cell carries its [source] array, one
    entry per line, without the line terminators.  A markdown cell is kept
    by its heading (the empty string where the cell starts with plain
    text); the formulas of the markdown cells are the definitions of the
    sections below. *)
Inductive cell : Type :=
  | Markdown (heading : string)
  | Code (source : list string).

(** The double-quote character of [sns.set_style("whitegrid")]. *)
Definition dq : string := String (ascii_of_nat 34) EmptyString.

(** The first code cell: imports, plotting style and IPython magics. *)
Definition imports_source : list string :=
  [ "import matplotlib.pyplot as plt";
    "import numpy as np";
    "import pandas as pd";
    "import seaborn as sns";
    "import scipy.stats as stats";
    "";
    "sns.set_style(" ++ dq ++ "whitegrid" ++ dq ++ ")";
    "";
    "%matplotlib inline";
    "%config InlineBackend.figure_format = 'retina'" ].

(** The placeholder left for the student. *)
Definition placeholder_source : list string := [ "# A:" ].

(** The cells, in the order of the file. *)
Definition cells : list cell :=
  [ Markdown "# Conjugacy and the Beta-Binomial Model";
    Markdown "### Lesson Guide";
    Code imports_source;
    Markdown "## Introduction";
    Markdown "## Review: probability mass function";
    Markdown "## Review: the Binomial distribution probability mass function";
    Code placeholder_source;
    Markdown "";
    Code placeholder_source;
    Markdown "## Modeling the parameter $p$ given counts of successes and failures";
    Markdown "## The Binomial likelihood";
    Code placeholder_source;
    Markdown ("## The " ++ dq ++ "Maximum Likelihood Estimate" ++ dq ++ " for $p$");
    Code placeholder_source;
    Markdown "### The likelihood function (optional)";
    Code placeholder_source;
    Markdown "## Bayesian modeling of the parameter $p$ and the Beta distribution";
    Code placeholder_source;
    Markdown "";
    Code placeholder_source;
    Markdown "## The Beta PDF and the Beta function";
    Markdown "## The Gamma function (optional)";
    Markdown "## Definining the Beta function using the Gamma function";
    Markdown ("## Putting it all together: the Beta as a " ++ dq ++
              "conjugate prior" ++ dq ++ " to the Binomial likelihood");
    Markdown "### MAP = Maximum A Posteriori = Mode of Posterior Distribution";
    Code [] ].

(** The sources of the code cells, in order. *)
Fixpoint code_sources (cs : list cell) : list (list string) :=
  match cs with
  | [] => []
  | Markdown _ :: cs' => code_sources cs'
  | Code src :: cs' => src :: code_sources cs'
  end.

(** Leading blanks of a line are not significant for what follows. *)
Fixpoint strip_left (s : string) : string :=
  match s with
  | String c s' =>
      if (Ascii.eqb c " " || Ascii.eqb c (ascii_of_nat 9))%bool
      then strip_left s' else s
  | EmptyString => EmptyString
  end.

(** A line is executable when it is neither blank nor a comment: Python
    ignores both, and everything else (statements, IPython magics) is run
    when the cell is. *)
Definition executable_line (s : string) : bool :=
  match strip_left s with
  | EmptyString => false
  | String c _ => negb (Ascii.eqb c "#")
  end.

Definition executable_lines (src : list string) : list string :=
  filter executable_line src.

(** A cell is an [# A:] placeholder when that comment is its whole source. *)
Definition is_placeholder (src : list string) : bool :=
  if list_eq_dec string_dec src placeholder_source then true else false.

End Notebook.

(** ** The formulas of the markdown cells *)

Open Scope R_scope.

(** *** Powers *)

(** [x^y] for a real exponent, as the notebook's formulas use it on
    [0 <= x]: the usual power on [0 < x]; at [x = 0] the value is [1] for
    the exponent [0] (the convention of the Binomial mass function, where
    [p^0 = 1] also at [p = 0]), [0] for a positive exponent, and there is
    no value for a negative exponent, which divides by zero.  A negative
    base has no value either. *)
Definition rpow (x y : R) : option R :=
  if Rlt_dec 0 x then Some (Rpower x y)
  else if Rlt_dec x 0 then None
  else if Rlt_dec y 0 then None
  else if Rlt_dec 0 y then Some 0
  else Some 1.

(** Product of two values that may be missing. *)
Definition omul (a b : option R) : option R :=
  match a, b with
  | Some u, Some v => Some (u * v)
  | _, _ => None
  end.

(** A constant times a value that may be missing. *)
Definition oscal (c : R) (a : option R) : option R :=
  match a with
  | Some u => Some (c * u)
  | None => None
  end.

(** *** Integrals *)

(** The Riemann integral of [f] over [[a, b]], as a number: the value of
    [RiemannInt] for any proof that [f] is integrable there. *)
Definition RInt (f : R -> R) (a b : R) : R :=
  epsilon (inhabits 0)
    (fun I => exists pr : Riemann_integrable f a b, RiemannInt pr = I).

(** Continuity at every point of a closed interval. *)
Definition cont_on (f : R -> R) (a b : R) : Prop :=
  forall x, a <= x <= b -> continuity_pt f x.

(** The closed intervals inside a set [inD] of reals. *)
Definition closed_inside (inD : R -> Prop) (a b : R) : Prop :=
  a <= b /\ forall x, a <= x <= b -> inD x.

(** [I] is the improper integral of [f] for a notion [near] of intervals
    close to the ends of an open interval: the integrals over such
    intervals are as close to [I] as one wishes. *)
Definition is_improper_integral (near : (R -> R -> Prop) -> Prop)
    (f : R -> R) (I : R) : Prop :=
  forall eps, 0 < eps -> near (fun a b => Rabs (RInt f a b - I) < eps).

(** The positive half line and the open unit interval. *)
Definition half_line (x : R) : Prop := 0 < x.
Definition unit_interval (x : R) : Prop := 0 < x < 1.

(** A property of intervals [[a, b]] holds near the ends of the half
    line when it holds as soon as [a] is close enough to [0] and [b] is
    large enough. *)
Definition near_0_inf (P : R -> R -> Prop) : Prop :=
  exists d M, 0 < d /\
    forall a b, 0 < a < d -> M < b -> a <= b -> P a b.

(** [I] is the integral of [f] from [0] to infinity, improper at both
    ends: the integrals over [[a, b]] tend to [I] as [a] decreases to [0]
    and [b] grows. *)
Definition is_integral_0_inf (f : R -> R) (I : R) : Prop :=
  is_improper_integral near_0_inf f I.

Definition integral_0_inf (f : R -> R) : R :=
  epsilon (inhabits 0) (is_integral_0_inf f).

(** A sequence of intervals that gets near the ends of the half line. *)
Definition seq_inf_a (n : nat) : R := / (INR n + 2).
Definition seq_inf_b (n : nat) : R := INR n + 2.

(** The same near the two ends of the unit interval. *)
Definition near_0_1 (P : R -> R -> Prop) : Prop :=
  exists d, 0 < d /\
    forall a b, 0 < a < d -> 1 - d < b < 1 -> a <= b -> P a b.

(** [I] is the integral of [f] from [0] to [1], improper at both ends. *)
Definition is_integral_0_1 (f : R -> R) (I : R) : Prop :=
  is_improper_integral near_0_1 f I.

Definition integral_0_1 (f : R -> R) : R :=
  epsilon (inhabits 0) (is_integral_0_1 f).

(** A sequence of intervals that gets near the ends of the unit
    interval. *)
Definition seq_01_a (n : nat) : R := / (INR n + 3).
Definition seq_01_b (n : nat) : R := 1 - / (INR n + 3).

(** *** The Binomial mass function and likelihood *)

(** The binomial coefficient [n choose k]. *)
Definition binom (n k : nat) : R :=
  INR (fact n) / (INR (fact k) * INR (fact (n - k))).

(** The mass function of the review (line 111):
    [P(k | n, p) = binom(n, k) p^k (1 - p)^(n - k)]. *)
Definition binomial_pmf (n : nat) (p : R) (k : nat) : R :=
  binom n k * p ^ k * (1 - p) ^ (n - k).

(** The likelihood function [L(n, k | p)] (line 252), which is the same
    as the mass function. *)
Definition L (n k : nat) (p : R) : R :=
  binom n k * p ^ k * (1 - p) ^ (n - k).

(** The log likelihood [LL(n, k | p)] (line 256). *)
Definition LL (n k : nat) (p : R) : R :=
  ln (binom n k) + INR k * ln p + (INR n - INR k) * ln (1 - p).

(** The derivative of the log likelihood with respect to [p], as the
    derivation writes it (line 265). *)
Definition dLL (n k : nat) (p : R) : R :=
  INR k / p - (INR n - INR k) / (1 - p).

(** The maximum likelihood estimate: the fraction of successes
    (lines 227 and 269). *)
Definition MLE (n k : nat) : R := INR k / INR n.

(** *** The Gamma function and the Beta function *)

(** The integrand [x^(z - 1) e^(-x)] of the Gamma function, on [0 < x]. *)
Definition Gamma_integrand (z x : R) : R := Rpower x (z - 1) * exp (- x).

(** [Gamma(z)], by the integral of the notebook (lines 394 to 398). *)
Definition Gamma (z : R) : R := integral_0_inf (Gamma_integrand z).

(** The constants of an exponential bound [K e^(-x/2)] of the integrand
    on [1 <= x]. *)
Definition Gamma_tail_exponent (z : R) : R := Rmax (z - 1) 1.
Definition Gamma_tail_constant (z : R) : R :=
  exp (Gamma_tail_exponent z * (ln (Gamma_tail_exponent z / / 2) - 1)).

(** The other case of the notebook's definition: [(z - 1)!] when [z] is
    a positive integer. *)
Definition Gamma_int (z : nat) : R := INR (fact (z - 1)).

(** The properties that single out the Gamma function among the
    functions on the positive reals: positive values, the value [1] at
    [1], the recurrence of the factorial, and a convex logarithm. *)
Definition Gamma_like (f : R -> R) : Prop :=
  (forall x, 0 < x -> 0 < f x) /\
  f 1 = 1 /\
  (forall x, 0 < x -> f (x + 1) = x * f x) /\
  (forall y1 y2 th, 0 < y1 -> 0 < y2 -> 0 <= th <= 1 ->
     f (th * y1 + (1 - th) * y2)
       <= Rpower (f y1) th * Rpower (f y2) (1 - th)).

(** The integrand [u^(alpha - 1) (1 - u)^(beta - 1)], on [0 < u < 1]. *)
Definition Beta_integrand (alpha beta u : R) : R :=
  Rpower u (alpha - 1) * Rpower (1 - u) (beta - 1).

(** The Beta function as the integral in the denominator of the density
    (lines 373 and 411). *)
Definition Beta_integral (alpha beta : R) : R :=
  integral_0_1 (Beta_integrand alpha beta).

(** The Beta function in terms of the Gamma function (line 411). *)
Definition Beta_Gamma (alpha beta : R) : R :=
  Gamma alpha * Gamma beta / Gamma (alpha + beta).

(** The Beta integral, scaled to satisfy the recurrence of the Gamma
    function in its second argument. *)
Definition scaled_Beta (alpha y : R) : R :=
  Beta_integral alpha y * Gamma (alpha + y) / Gamma alpha.

(** *** The Beta density *)

(** The numerator [x^(alpha - 1) (1 - x)^(beta - 1)] of the density. *)
Definition Beta_kernel (alpha beta x : R) : option R :=
  omul (rpow x (alpha - 1)) (rpow (1 - x) (beta - 1)).

(** The density, first form (line 373): the numerator over the Beta
    integral. *)
Definition PDF_Beta_integral (alpha beta x : R) : option R :=
  match Beta_kernel alpha beta x with
  | Some v => Some (v / Beta_integral alpha beta)
  | None => None
  end.

(** The density, second form (line 415): with the Gamma function. *)
Definition PDF_Beta (alpha beta x : R) : option R :=
  oscal (Gamma (alpha + beta) / (Gamma alpha * Gamma beta))
        (Beta_kernel alpha beta x).

(** The Beta distribution of the counts (lines 323 to 327):
    [alpha] is the number of successes plus one, [beta] the number of
    failures plus one. *)
Definition Beta_of_counts (successes failures : nat) : R * R :=
  (INR successes + 1, INR failures + 1).

(** *** The posterior *)

(** The constant [c] of the derivation (line 452). *)
Definition c_const (n k : nat) (alpha beta : R) : R :=
  binom n k * (Gamma (alpha + beta) / (Gamma alpha * Gamma beta)).

(** The unnormalized posterior (line 448): likelihood times prior. *)
Definition unnormalized_posterior (n k : nat) (alpha beta p : R) : option R :=
  oscal (L n k p) (PDF_Beta alpha beta p).

(** [alpha_posterior = k + alpha_prior] (line 465). *)
Definition alpha_posterior (k : nat) (alpha_prior : R) : R :=
  INR k + alpha_prior.

(** [beta_posterior = n - k + beta_prior] (line 466). *)
Definition beta_posterior (n k : nat) (beta_prior : R) : R :=
  INR n - INR k + beta_prior.

(** The posterior update of a prior shape pair by [k] successes in [n]
    trials. *)
Definition posterior_update (n k : nat) (prior : R * R) : R * R :=
  (alpha_posterior k (fst prior), beta_posterior n k (snd prior)).

(** The constant between the unnormalized posterior and the density of
    the updated parameters. *)
Definition posterior_constant (n k : nat) (alpha beta : R) : R :=
  c_const n k alpha beta /
    (Gamma (alpha_posterior k alpha + beta_posterior n k beta)
       / (Gamma (alpha_posterior k alpha) * Gamma (beta_posterior n k beta))).

(** The number a density stands for where it has a value; where it has
    none the choice does not matter for an integral over the inside of
    the interval. *)
Definition density_value (d : option R) : R :=
  match d with
  | Some v => v
  | None => 0
  end.

(** The marginal probability of the data [P(n, k)] (lines 173 and 180):
    the normalizing constant, the integral of likelihood times prior over
    the success probability. *)
Definition marginal (n k : nat) (alpha beta : R) : R :=
  integral_0_1 (fun p => density_value (unnormalized_posterior n k alpha beta p)).

(** Bayes' formula (lines 173 and 430):
    [P(p | n, k) = P(n, k | p) / P(n, k) * P(p)]. *)
Definition posterior_density (n k : nat) (alpha beta p : R) : option R :=
  match PDF_Beta alpha beta p with
  | Some prior => Some (L n k p / marginal n k alpha beta * prior)
  | None => None
  end.

(** Updates by several batches of observations, each a pair (trials,
    successes), one after the other. *)
Definition posterior_updates (obs : list (nat * nat)) (prior : R * R) : R * R :=
  fold_left (fun pr o => posterior_update (fst o) (snd o) pr) obs prior.

(** The trials and the successes of several batches, added up. *)
Definition total_trials (obs : list (nat * nat)) : nat :=
  fold_right (fun o s => (fst o + s)%nat) 0%nat obs.
Definition total_successes (obs : list (nat * nat)) : nat :=
  fold_right (fun o s => (snd o + s)%nat) 0%nat obs.

(** [MAP(alpha, beta) = (alpha - 1) / (alpha + beta - 2)] (line 484). *)
Definition MAP (alpha beta : R) : R := (alpha - 1) / (alpha + beta - 2).

(** *** Maxima on the unit interval *)

(** [m] is a point of [[0, 1]] where [f] takes a value no smaller than
    anywhere else on [[0, 1]]. *)
Definition maximizes (f : R -> R) (m : R) : Prop :=
  0 <= m <= 1 /\ forall x, 0 <= x <= 1 -> f x <= f m.

(** [m] is the mode of a density [f] on [[0, 1]]: [f] has a value at [m],
    and at every other point of [[0, 1]] it has a strictly smaller one. *)
Definition is_mode (f : R -> option R) (m : R) : Prop :=
  0 <= m <= 1 /\
  exists vm, f m = Some vm /\
    forall x, 0 <= x <= 1 -> x <> m -> exists v, f x = Some v /\ v < vm.

(** * Properties *)

(** ** The code cells *)

Section CodeCells.

Import Notebook.
Local Open Scope list_scope.

Lemma code_sources_cells :
  code_sources cells =
    imports_source :: repeat placeholder_source 7 ++ [ [] ].
Proof. reflexivity. Qed.

Lemma executable_imports :
  List.length (executable_lines imports_source) = 8%nat.
Proof. reflexivity. Qed.

Lemma placeholder_not_executable :
  executable_lines placeholder_source = [].
Proof. reflexivity. Qed.

(** C5, as stated, fails: the first code cell of the notebook is not the
    comment [# A:], and it has executable lines. *)
Lemma C5_first_code_cell_is_not_a_placeholder :
  ~ Forall (fun src => src = placeholder_source /\ executable_lines src = [])
           (code_sources cells).
Proof.
  rewrite code_sources_cells. intros H.
  inversion H as [| src rest [Hsrc _] _]; subst.
  discriminate Hsrc.
Qed.

(** C5, amended: the first code cell holds the imports, the plotting style
    and the IPython magics (eight executable lines); every code cell after
    it is either a placeholder, whose whole source is the comment [# A:],
    or, for the last one, has no source at all; there are seven
    placeholders, and no code cell after the first has an executable
    line. *)
Theorem C5_code_cells_after_the_first_are_placeholders :
  exists rest,
    code_sources cells = imports_source :: rest /\
    List.length (executable_lines imports_source) = 8%nat /\
    Forall (fun src => src = placeholder_source \/ src = []) rest /\
    Forall (fun src => executable_lines src = []) rest /\
    List.length (filter is_placeholder rest) = 7%nat /\
    last rest placeholder_source = [].
Proof.
  exists (repeat placeholder_source 7 ++ [ [] ]).
  split; [reflexivity |].
  split; [reflexivity |].
  split.
  - apply Forall_app; split.
    + apply Forall_forall; intros src Hin.
      left; exact (repeat_spec _ _ _ Hin).
    + constructor; [right; reflexivity | constructor].
  - split.
    + apply Forall_app; split.
      * apply Forall_forall; intros src Hin.
        rewrite (repeat_spec _ _ _ Hin); reflexivity.
      * constructor; [reflexivity | constructor].
    + split; reflexivity.
Qed.

End CodeCells.

(** ** The posterior update *)

Section PosteriorUpdate.

Variables (n k : nat) (alpha beta : R).

(** C1: with [k] successes in [n] trials, [0 <= k <= n], the update of the
    prior [(alpha, beta)] is exactly [(k + alpha, n - k + beta)]; the
    difference [n - k] is the number of failures. *)
Theorem C1_posterior_update_exact :
  (0 <= k <= n)%nat ->
  posterior_update n k (alpha, beta) = (INR k + alpha, INR n - INR k + beta) /\
  posterior_update n k (alpha, beta) = (INR k + alpha, INR (n - k) + beta).
Proof.
  intros [_ Hkn].
  unfold posterior_update, alpha_posterior, beta_posterior; simpl.
  split; [reflexivity |].
  rewrite minus_INR by exact Hkn. reflexivity.
Qed.

(** C8: the update of valid Beta parameters is valid: from [0 < alpha],
    [0 < beta] and [0 <= k <= n], both [k + alpha] and [n - k + beta] are
    strictly positive. *)
Theorem C8_posterior_update_positive :
  0 < alpha -> 0 < beta -> (0 <= k <= n)%nat ->
  0 < fst (posterior_update n k (alpha, beta)) /\
  0 < snd (posterior_update n k (alpha, beta)) /\
  0 < INR k + alpha /\ 0 < INR n - INR k + beta.
Proof.
  intros Ha Hb [_ Hkn].
  assert (Hk : 0 <= INR k) by apply pos_INR.
  assert (Hn : INR k <= INR n) by (apply le_INR; exact Hkn).
  unfold posterior_update, alpha_posterior, beta_posterior; simpl.
  repeat split; lra.
Qed.

End PosteriorUpdate.

Section PosteriorUpdateTwice.

Variables (n1 k1 n2 k2 : nat) (prior : R * R).

(** C9: two updates in a row are one update with the trials and the
    successes added up, and the order of the two updates does not
    matter. *)
Theorem C9_posterior_update_additive_commutes :
  (0 <= k1 <= n1)%nat -> (0 <= k2 <= n2)%nat ->
  posterior_update n2 k2 (posterior_update n1 k1 prior)
    = posterior_update (n1 + n2) (k1 + k2) prior /\
  posterior_update n2 k2 (posterior_update n1 k1 prior)
    = posterior_update n1 k1 (posterior_update n2 k2 prior).
Proof.
  intros _ _. destruct prior as [a b].
  unfold posterior_update, alpha_posterior, beta_posterior; simpl.
  rewrite !plus_INR.
  split; f_equal; ring.
Qed.

End PosteriorUpdateTwice.

(** C10: under the uniform prior [Beta(1, 1)] the posterior is the Beta
    distribution of the counts, and its MAP is the maximum likelihood
    estimate: for [0 < n] and [0 <= k <= n],
    [MAP(k + 1, n - k + 1) = (k + 1 - 1) / ((k + 1) + (n - k + 1) - 2) = k / n]. *)
Theorem C10_uniform_prior_MAP_is_MLE (n k : nat) :
  (0 < n)%nat -> (0 <= k <= n)%nat ->
  posterior_update n k (1, 1) = Beta_of_counts k (n - k) /\
  posterior_update n k (1, 1) = (INR k + 1, INR n - INR k + 1) /\
  MAP (INR k + 1) (INR n - INR k + 1)
    = (INR k + 1 - 1) / ((INR k + 1) + (INR n - INR k + 1) - 2) /\
  MAP (INR k + 1) (INR n - INR k + 1) = INR k / INR n /\
  MAP (fst (posterior_update n k (1, 1))) (snd (posterior_update n k (1, 1)))
    = MLE n k.
Proof.
  intros Hn [_ Hkn].
  assert (Hn' : 0 < INR n) by (apply lt_0_INR; exact Hn).
  unfold posterior_update, alpha_posterior, beta_posterior, Beta_of_counts,
    MAP, MLE; simpl.
  rewrite minus_INR by exact Hkn.
  repeat split; try reflexivity; field; lra.
Qed.

(** ** The likelihood and its maximum *)

Lemma ln_le_minus_1 (t : R) : 0 < t -> ln t <= t - 1.
Proof.
  intros Ht. pose proof (exp_ineq1_le (ln t)) as H.
  rewrite exp_ln in H by exact Ht. lra.
Qed.

Lemma ln_lt_minus_1 (t : R) : 0 < t -> t <> 1 -> ln t < t - 1.
Proof.
  intros Ht Hne.
  pose proof (exp_ineq1 (ln t) (ln_neq_0 t Hne Ht)) as H.
  rewrite exp_ln in H by exact Ht. lra.
Qed.

Lemma ln_div (x m : R) : 0 < x -> 0 < m -> ln x = ln m + ln (x / m).
Proof.
  intros Hx Hm. unfold Rdiv.
  rewrite ln_mult, ln_Rinv; try lra.
  apply Rinv_0_lt_compat; exact Hm.
Qed.

Lemma weighted_ln_le (s t x m : R) :
  0 <= s -> 0 <= t -> 0 < x < 1 -> 0 < m < 1 -> s * (1 - m) = t * m ->
  s * ln x + t * ln (1 - x) <= s * ln m + t * ln (1 - m).
Proof.
  intros Hs Ht Hx Hm Hst.
  rewrite (ln_div x m), (ln_div (1 - x) (1 - m)) by lra.
  assert (H1 : ln (x / m) <= x / m - 1).
  { apply ln_le_minus_1. apply Rdiv_lt_0_compat; lra. }
  assert (H2 : ln ((1 - x) / (1 - m)) <= (1 - x) / (1 - m) - 1).
  { apply ln_le_minus_1. apply Rdiv_lt_0_compat; lra. }
  assert (H3 : s * (x / m - 1) + t * ((1 - x) / (1 - m) - 1) = 0).
  { replace (s * (x / m - 1) + t * ((1 - x) / (1 - m) - 1))
      with ((x - m) * (s * (1 - m) - t * m) / (m * (1 - m))) by (field; lra).
    rewrite Hst. unfold Rdiv. ring. }
  assert (H4 : s * ln (x / m) <= s * (x / m - 1)) by (apply Rmult_le_compat_l; lra).
  assert (H5 : t * ln ((1 - x) / (1 - m)) <= t * ((1 - x) / (1 - m) - 1))
    by (apply Rmult_le_compat_l; lra).
  lra.
Qed.

Lemma weighted_ln_lt (s t x m : R) :
  0 < s -> 0 <= t -> 0 < x < 1 -> 0 < m < 1 -> s * (1 - m) = t * m ->
  x <> m ->
  s * ln x + t * ln (1 - x) < s * ln m + t * ln (1 - m).
Proof.
  intros Hs Ht Hx Hm Hst Hne.
  rewrite (ln_div x m), (ln_div (1 - x) (1 - m)) by lra.
  assert (H1 : ln (x / m) < x / m - 1).
  { apply ln_lt_minus_1.
    - apply Rdiv_lt_0_compat; lra.
    - intros E. apply Hne.
      replace x with (x / m * m) by (field; lra). rewrite E. ring. }
  assert (H2 : ln ((1 - x) / (1 - m)) <= (1 - x) / (1 - m) - 1).
  { apply ln_le_minus_1. apply Rdiv_lt_0_compat; lra. }
  assert (H3 : s * (x / m - 1) + t * ((1 - x) / (1 - m) - 1) = 0).
  { replace (s * (x / m - 1) + t * ((1 - x) / (1 - m) - 1))
      with ((x - m) * (s * (1 - m) - t * m) / (m * (1 - m))) by (field; lra).
    rewrite Hst. unfold Rdiv. ring. }
  assert (H4 : s * ln (x / m) < s * (x / m - 1)) by (apply Rmult_lt_compat_l; lra).
  assert (H5 : t * ln ((1 - x) / (1 - m)) <= t * ((1 - x) / (1 - m) - 1))
    by (apply Rmult_le_compat_l; lra).
  lra.
Qed.

Lemma pow_exp_ln (x : R) (n : nat) : 0 < x -> x ^ n = exp (INR n * ln x).
Proof.
  intros Hx. rewrite <- Rpower_pow by exact Hx. reflexivity.
Qed.

Lemma exp_le_compat (x y : R) : x <= y -> exp x <= exp y.
Proof.
  intros [H | H]; [left; apply exp_increasing; exact H | subst; right; reflexivity].
Qed.

Lemma exp_neg_le_1 (x : R) : 0 <= x -> exp (- x) <= 1.
Proof.
  intros Hx. rewrite <- exp_0. apply exp_le_compat. lra.
Qed.

Section Likelihood.

Variables (n k : nat).
Hypothesis Hn : (0 < n)%nat.
Hypothesis Hkn : (0 <= k <= n)%nat.

Lemma binom_pos : 0 < binom n k.
Proof.
  unfold binom. apply Rdiv_lt_0_compat.
  - apply INR_fact_lt_0.
  - apply Rmult_lt_0_compat; apply INR_fact_lt_0.
Qed.

Lemma MLE_in_unit_interval : 0 <= MLE n k <= 1.
Proof.
  unfold MLE.
  assert (H0 : 0 < INR n) by (apply lt_0_INR; exact Hn).
  assert (H1 : 0 <= INR k) by apply pos_INR.
  assert (H2 : INR k <= INR n) by (apply le_INR; lia).
  split.
  - apply Rmult_le_pos; [exact H1 | left; apply Rinv_0_lt_compat; exact H0].
  - apply Rmult_le_reg_r with (INR n); [exact H0 |].
    unfold Rdiv. rewrite Rmult_assoc, Rinv_l by lra. lra.
Qed.

Lemma kernel_le_at_MLE (p : R) :
  0 <= p <= 1 ->
  p ^ k * (1 - p) ^ (n - k) <= MLE n k ^ k * (1 - MLE n k) ^ (n - k).
Proof.
  intros Hp.
  assert (H0 : 0 < INR n) by (apply lt_0_INR; exact Hn).
  assert (Hq : 0 <= MLE n k <= 1) by exact MLE_in_unit_interval.
  assert (Hnk : INR (n - k) = INR n - INR k) by (apply minus_INR; lia).
  assert (Hp1 : forall j, p ^ j <= 1).
  { intros j. apply Rle_trans with (1 ^ j); [apply pow_incr; lra | rewrite pow1; lra]. }
  assert (Hp2 : forall j, (1 - p) ^ j <= 1).
  { intros j. apply Rle_trans with (1 ^ j); [apply pow_incr; lra | rewrite pow1; lra]. }
  destruct (Nat.eq_dec k 0) as [Hk0 | Hk0].
  { (* no success: the estimate is 0 *)
    assert (E : MLE n k = 0) by (unfold MLE; rewrite Hk0; simpl; unfold Rdiv; ring).
    rewrite E, Hk0, Rminus_0_r, pow1. simpl. specialize (Hp2 (n - 0)%nat). lra. }
  destruct (Nat.eq_dec k n) as [Hkn' | Hkn'].
  { (* only successes: the estimate is 1 *)
    assert (E : MLE n k = 1) by (unfold MLE; rewrite Hkn'; field; lra).
    rewrite E, Hkn', Nat.sub_diag, pow1. simpl. specialize (Hp1 n). lra. }
  assert (Hk : (0 < k < n)%nat) by lia.
  assert (Hk1 : 0 < INR k) by (apply lt_0_INR; lia).
  assert (Hk2 : INR k < INR n) by (apply lt_INR; lia).
  assert (Hq' : 0 < MLE n k < 1).
  { unfold MLE; split.
    - apply Rdiv_lt_0_compat; lra.
    - apply Rmult_lt_reg_r with (INR n); [exact H0 |].
      unfold Rdiv. rewrite Rmult_assoc, Rinv_l by lra. lra. }
  assert (Hpos : 0 < MLE n k ^ k * (1 - MLE n k) ^ (n - k)).
  { apply Rmult_lt_0_compat; apply pow_lt; lra. }
  destruct (Req_dec p 0) as [Ep0 | Ep0].
  { rewrite Ep0, pow_i by lia. lra. }
  destruct (Req_dec p 1) as [Ep1 | Ep1].
  { rewrite Ep1. replace (1 - 1) with 0 by ring. rewrite (pow_i (n - k)) by lia. lra. }
  rewrite !pow_exp_ln by lra. rewrite <- !exp_plus.
  apply exp_le_compat. rewrite Hnk.
  apply weighted_ln_le; try lra.
  unfold MLE. field. lra.
Qed.

End Likelihood.

(** C3: for [0 < n] and [0 <= k <= n] the maximum likelihood estimate is
    [k / n], and [p = k / n] maximizes the Binomial likelihood
    [L(n, k | p)] over [p] in [[0, 1]]. *)
Theorem C3_MLE_maximizes_likelihood (n k : nat) :
  (0 < n)%nat -> (0 <= k <= n)%nat ->
  MLE n k = INR k / INR n /\ maximizes (L n k) (MLE n k).
Proof.
  intros Hn Hkn. split; [reflexivity |].
  split; [apply MLE_in_unit_interval; assumption |].
  intros p Hp. unfold L. rewrite !Rmult_assoc.
  apply Rmult_le_compat_l.
  - left. apply binom_pos.
  - apply kernel_le_at_MLE; assumption.
Qed.

Lemma C3_MLE_maximizes_likelihood_witness :
  MLE 2 1 = INR 1 / INR 2 /\ maximizes (L 2 1) (MLE 2 1).
Proof. apply (C3_MLE_maximizes_likelihood 2 1); lia. Defined.

(** ** Riemann integrals of continuous functions *)

Section ProperIntegrals.

Lemma RInt_eq (f : R -> R) (a b : R) (pr : Riemann_integrable f a b) :
  RInt f a b = RiemannInt pr.
Proof.
  unfold RInt.
  assert (H : exists I, exists pr' : Riemann_integrable f a b, RiemannInt pr' = I)
    by (exists (RiemannInt pr), pr; reflexivity).
  destruct (epsilon_spec (inhabits 0) _ H) as [pr' E].
  rewrite <- E. apply RiemannInt_P5.
Qed.

Lemma RInt_point (f : R -> R) (a : R) : RInt f a a = 0.
Proof.
  rewrite (RInt_eq f a a (RiemannInt_P7 f a)). apply RiemannInt_P9.
Qed.

Lemma RInt_ext (f g : R -> R) (a b : R) :
  a <= b -> cont_on f a b -> (forall x, a <= x <= b -> f x = g x) ->
  RInt f a b = RInt g a b.
Proof.
  intros Hab Hf Hfg.
  pose (pf := continuity_implies_RiemannInt Hab Hf).
  assert (pg : Riemann_integrable g a b).
  { apply Riemann_integrable_ext with f; [| exact pf].
    intros x Hx. apply Hfg.
    rewrite Rmin_left, Rmax_right in Hx by exact Hab. exact Hx. }
  rewrite (RInt_eq f a b pf), (RInt_eq g a b pg).
  apply RiemannInt_P18; [exact Hab |].
  intros x Hx. apply Hfg. lra.
Qed.

Lemma RInt_le (f g : R -> R) (a b : R) :
  a <= b -> cont_on f a b -> cont_on g a b ->
  (forall x, a < x < b -> f x <= g x) ->
  RInt f a b <= RInt g a b.
Proof.
  intros Hab Hf Hg Hfg.
  rewrite (RInt_eq f a b (continuity_implies_RiemannInt Hab Hf)).
  rewrite (RInt_eq g a b (continuity_implies_RiemannInt Hab Hg)).
  apply RiemannInt_P19; assumption.
Qed.

Lemma RInt_const (c a b : R) : RInt (fct_cte c) a b = c * (b - a).
Proof.
  rewrite (RInt_eq _ a b (RiemannInt_P14 a b c)). apply RiemannInt_P15.
Qed.

Lemma cont_on_const (c a b : R) : cont_on (fct_cte c) a b.
Proof. intros x _. apply continuity_const. intros u v; reflexivity. Qed.

Lemma RInt_nonneg (f : R -> R) (a b : R) :
  a <= b -> cont_on f a b -> (forall x, a < x < b -> 0 <= f x) ->
  0 <= RInt f a b.
Proof.
  intros Hab Hf Hpos.
  replace 0 with (RInt (fct_cte 0) a b) by (rewrite RInt_const; ring).
  apply RInt_le; try assumption. apply cont_on_const.
Qed.

Lemma RInt_ge_const (f : R -> R) (c a b : R) :
  a <= b -> cont_on f a b -> (forall x, a < x < b -> c <= f x) ->
  c * (b - a) <= RInt f a b.
Proof.
  intros Hab Hf Hc. rewrite <- RInt_const.
  apply RInt_le; try assumption. apply cont_on_const.
Qed.

Lemma cont_on_sub (f : R -> R) (a b a' b' : R) :
  cont_on f a b -> a <= a' -> b' <= b -> cont_on f a' b'.
Proof. intros Hf Ha Hb x Hx. apply Hf. lra. Qed.

Lemma RInt_Chasles (f : R -> R) (a b c : R) :
  a <= b -> b <= c -> cont_on f a c ->
  RInt f a b + RInt f b c = RInt f a c.
Proof.
  intros Hab Hbc Hf.
  assert (Hac : a <= c) by lra.
  assert (H1 : cont_on f a b) by (apply (cont_on_sub f a c _ _ Hf); lra).
  assert (H2 : cont_on f b c) by (apply (cont_on_sub f a c _ _ Hf); lra).
  rewrite (RInt_eq f a b (continuity_implies_RiemannInt Hab H1)).
  rewrite (RInt_eq f b c (continuity_implies_RiemannInt Hbc H2)).
  rewrite (RInt_eq f a c (continuity_implies_RiemannInt Hac Hf)).
  apply RiemannInt_P26.
Qed.

Lemma RInt_grows (f : R -> R) (a b a' b' : R) :
  a' <= a -> a <= b -> b <= b' -> cont_on f a' b' ->
  (forall x, a' <= x <= b' -> 0 <= f x) ->
  RInt f a b <= RInt f a' b'.
Proof.
  intros Ha Hab Hb Hf Hpos.
  rewrite <- (RInt_Chasles f a' a b') by (assumption || lra).
  rewrite <- (RInt_Chasles f a b b')
    by (try assumption; apply (cont_on_sub f a' b' _ _ Hf); lra).
  assert (H1 : 0 <= RInt f a' a).
  { apply RInt_nonneg; [exact Ha | |].
    - apply (cont_on_sub f a' b' _ _ Hf); lra.
    - intros x Hx; apply Hpos; lra. }
  assert (H2 : 0 <= RInt f b b').
  { apply RInt_nonneg; [exact Hb | |].
    - apply (cont_on_sub f a' b' _ _ Hf); lra.
    - intros x Hx; apply Hpos; lra. }
  lra.
Qed.

Lemma RInt_linear (f g : R -> R) (l a b : R) :
  a <= b -> cont_on f a b -> cont_on g a b ->
  RInt (fun x => f x + l * g x) a b = RInt f a b + l * RInt g a b.
Proof.
  intros Hab Hf Hg.
  pose (pf := continuity_implies_RiemannInt Hab Hf).
  pose (pg := continuity_implies_RiemannInt Hab Hg).
  rewrite (RInt_eq f a b pf), (RInt_eq g a b pg).
  rewrite (RInt_eq _ a b (RiemannInt_P10 l pf pg)).
  apply RiemannInt_P13.
Qed.

(** The fundamental theorem, for a primitive given by its derivative at
    every point of the interval. *)
Lemma RInt_primitive (f G : R -> R) (a b : R) :
  a <= b -> cont_on f a b ->
  (forall x, a <= x <= b -> derivable_pt_lim G x (f x)) ->
  RInt f a b = G b - G a.
Proof.
  intros Hab Hf HG.
  assert (HA : antiderivative f G a b).
  { split; [| exact Hab].
    intros x Hx.
    exists (exist _ (f x) (HG x Hx)). reflexivity. }
  pose proof (RiemannInt_P29 Hab Hf) as HP.
  destruct (antiderivative_Ucte f _ _ a b HP HA) as [c Hc].
  rewrite (RInt_eq f a b (continuity_implies_RiemannInt Hab Hf)).
  rewrite (RiemannInt_P20 Hab (FTC_P1 Hab Hf)).
  rewrite (Hc a), (Hc b) by lra. ring.
Qed.



(** A bound for the integral of a nonnegative function over [[a, b]] from
    two functions with known primitives that dominate it on the two sides
    of a point [c]. *)
Lemma RInt_split_bound (f g1 g2 G1 G2 : R -> R) (a b a' b' c B1 B2 : R) :
  a' <= a -> a <= b -> b <= b' -> a' <= c <= b' ->
  cont_on f a' b' -> (forall x, a' <= x <= b' -> 0 <= f x) ->
  cont_on g1 a' c -> cont_on g2 c b' ->
  (forall x, a' < x < c -> f x <= g1 x) ->
  (forall x, c < x < b' -> f x <= g2 x) ->
  (forall x, a' <= x <= c -> derivable_pt_lim G1 x (g1 x)) ->
  (forall x, c <= x <= b' -> derivable_pt_lim G2 x (g2 x)) ->
  G1 c - G1 a' <= B1 -> G2 b' - G2 c <= B2 ->
  RInt f a b <= B1 + B2.
Proof.
  intros Ha Hab Hb Hc Hf Hpos Hg1 Hg2 Hle1 Hle2 HG1 HG2 HB1 HB2.
  apply Rle_trans with (RInt f a' b').
  { apply RInt_grows; assumption. }
  rewrite <- (RInt_Chasles f a' c b') by (try assumption; lra).
  assert (H1 : RInt f a' c <= RInt g1 a' c).
  { apply RInt_le; try assumption; [lra |].
    apply (cont_on_sub f a' b' _ _ Hf); lra. }
  assert (H2 : RInt f c b' <= RInt g2 c b').
  { apply RInt_le; try assumption; [lra |].
    apply (cont_on_sub f a' b' _ _ Hf); lra. }
  rewrite (RInt_primitive g1 G1 a' c) in H1 by (try assumption; lra).
  rewrite (RInt_primitive g2 G2 c b') in H2 by (try assumption; lra).
  lra.
Qed.
End ProperIntegrals.

(** A continuous function that is positive on [[a, b]], [a < b], has a
    positive integral there. *)
Lemma RInt_pos (f : R -> R) (a b : R) :
  a < b -> cont_on f a b -> (forall x, a <= x <= b -> 0 < f x) ->
  0 < RInt f a b.
Proof.
  intros Hab Hf Hpos.
  destruct (continuity_ab_min f a b (Rlt_le _ _ Hab) Hf) as (mx & Hmin & Hmx).
  apply Rlt_le_trans with (f mx * (b - a)).
  - apply Rmult_lt_0_compat; [apply Hpos; exact Hmx | lra].
  - apply RInt_ge_const; [lra | exact Hf |].
    intros x Hx. apply Hmin. lra.
Qed.

Lemma RInt_scal (f : R -> R) (l a b : R) :
  a <= b -> cont_on f a b -> RInt (fun x => l * f x) a b = l * RInt f a b.
Proof.
  intros Hab Hf.
  rewrite (RInt_ext (fun x => l * f x) (fun x => fct_cte 0 x + l * f x)).
  - rewrite RInt_linear, RInt_const by (exact Hab || exact Hf || apply cont_on_const).
    ring.
  - exact Hab.
  - intros x Hx. apply (continuity_pt_scal f), Hf, Hx.
  - intros x _. unfold fct_cte. ring.
Qed.

Lemma RInt_combination (f g : R -> R) (k l a b : R) :
  a <= b -> cont_on f a b -> cont_on g a b ->
  RInt (fun x => k * f x + l * g x) a b = k * RInt f a b + l * RInt g a b.
Proof.
  intros Hab Hf Hg.
  rewrite (RInt_linear (fun x => k * f x) g) by
    (try assumption; intros x Hx; apply (continuity_pt_scal f), Hf, Hx).
  rewrite RInt_scal by assumption. reflexivity.
Qed.

Lemma cont_on_combination (f g : R -> R) (k l a b : R) :
  cont_on f a b -> cont_on g a b -> cont_on (fun x => k * f x + l * g x) a b.
Proof.
  intros Hf Hg x Hx.
  apply (continuity_pt_plus (fun x => k * f x) (fun x => l * g x)).
  - apply (continuity_pt_scal f), Hf, Hx.
  - apply (continuity_pt_scal g), Hg, Hx.
Qed.

(** ** Improper integrals over an open interval

    What the two improper integrals of the notebook share: a notion of
    intervals [[a, b]] close to the ends of an open interval, and a
    sequence of intervals that gets there. *)

Section Improper.

Variable inD : R -> Prop.
Variable near : (R -> R -> Prop) -> Prop.
Variables sa sb : nat -> R.

Hypothesis near_mono :
  forall P Q : R -> R -> Prop,
    (forall a b, closed_inside inD a b -> P a b -> Q a b) -> near P -> near Q.
Hypothesis near_cofinal :
  forall a0 b0, closed_inside inD a0 b0 -> near (fun a b => a <= a0 /\ b0 <= b).
Hypothesis near_seq :
  forall P : R -> R -> Prop,
    near P -> exists N, forall n, (N <= n)%nat -> P (sa n) (sb n).
Hypothesis seq_dom : forall n, closed_inside inD (sa n) (sb n).

Lemma improper_seq_cv (f : R -> R) (I : R) :
  is_improper_integral near f I -> Un_cv (fun n => RInt f (sa n) (sb n)) I.
Proof.
  intros HI eps Heps.
  destruct (near_seq _ (HI eps Heps)) as [N HN].
  exists N. intros n Hn. unfold Rdist. apply HN. exact Hn.
Qed.

Lemma improper_unique (f : R -> R) (I J : R) :
  is_improper_integral near f I -> is_improper_integral near f J -> I = J.
Proof.
  intros HI HJ.
  apply (UL_sequence (fun n => RInt f (sa n) (sb n)));
    apply improper_seq_cv; assumption.
Qed.

Section Nonnegative.

Variable f : R -> R.
Hypothesis f_cont : forall x, inD x -> continuity_pt f x.
Hypothesis f_nonneg : forall x, inD x -> 0 <= f x.

Lemma dom_cont_on (a b : R) : closed_inside inD a b -> cont_on f a b.
Proof. intros [_ H] x Hx. apply f_cont, H, Hx. Qed.

Lemma improper_partial_grows (a b a' b' : R) :
  closed_inside inD a' b' -> a' <= a -> a <= b -> b <= b' ->
  RInt f a b <= RInt f a' b'.
Proof.
  intros Hd Ha Hab Hb.
  apply RInt_grows; try assumption.
  - apply dom_cont_on; exact Hd.
  - intros x Hx. apply f_nonneg. destruct Hd as [_ Hd]. apply Hd, Hx.
Qed.

Lemma improper_partial_nonneg (a b : R) : closed_inside inD a b -> 0 <= RInt f a b.
Proof.
  intros Hd. apply RInt_nonneg.
  - apply Hd.
  - apply dom_cont_on; exact Hd.
  - intros x Hx. apply f_nonneg. destruct Hd as [_ Hd]. apply Hd. lra.
Qed.

(** A nonnegative continuous function whose integrals over the closed
    intervals inside are bounded has an improper integral, and this is an
    upper bound of those integrals. *)
Lemma improper_exists (B : R) :
  (forall a b, closed_inside inD a b -> RInt f a b <= B) ->
  exists I, is_improper_integral near f I /\ (forall a b, closed_inside inD a b -> RInt f a b <= I) /\ I <= B.
Proof.
  intros HB.
  pose (E := fun y => exists a b, closed_inside inD a b /\ y = RInt f a b).
  assert (HbE : bound E).
  { exists B. intros y (a & b & Hd & ->). apply HB; exact Hd. }
  assert (HnE : exists y, E y).
  { exists (RInt f (sa 0) (sb 0)), (sa 0%nat), (sb 0%nat).
    split; [apply seq_dom | reflexivity]. }
  destruct (completeness E HbE HnE) as [I [Hub Hlub]].
  exists I. split; [| split].
  - intros eps Heps.
    assert (Hex : exists a0 b0, closed_inside inD a0 b0 /\ I - eps < RInt f a0 b0).
    { destruct (Classical_Prop.classic
                  (exists a0 b0, closed_inside inD a0 b0 /\ I - eps < RInt f a0 b0))
        as [H | H]; [exact H | exfalso].
      assert (Hub' : is_upper_bound E (I - eps)).
      { intros y (a & b & Hd & ->).
        destruct (Rle_or_lt (RInt f a b) (I - eps)) as [Hle | Hlt];
          [exact Hle | exfalso].
        apply H. exists a, b. split; assumption. }
      specialize (Hlub _ Hub'). lra. }
    destruct Hex as (a0 & b0 & Hd0 & Hgt).
    apply (near_mono (fun a b => a <= a0 /\ b0 <= b));
      [| apply near_cofinal; exact Hd0].
    intros a b Hd [Ha Hb].
    assert (H1 : RInt f a0 b0 <= RInt f a b).
    { apply improper_partial_grows; try assumption. apply Hd0. }
    assert (H2 : RInt f a b <= I).
    { apply Hub. exists a, b. split; [exact Hd | reflexivity]. }
    apply Rabs_def1; lra.
  - intros a b Hd. apply Hub. exists a, b. split; [exact Hd | reflexivity].
  - apply Hlub. intros y (a & b & Hd & ->). apply HB; exact Hd.
Qed.

End Nonnegative.

End Improper.

(** ** The two open intervals of the notebook *)

Lemma INR_above (A : R) : exists N, forall n, (N <= n)%nat -> A < INR n.
Proof.
  destruct (INR_unbounded A) as [N HN].
  exists N. intros n Hn. apply Rlt_le_trans with (INR N); [exact HN |].
  apply le_INR; exact Hn.
Qed.

Lemma Rinv_below (d c : R) :
  0 < d -> 0 < c -> exists N, forall n, (N <= n)%nat -> / (INR n + c) < d.
Proof.
  intros Hd Hc.
  destruct (INR_above (/ d)) as [N HN].
  exists N. intros n Hn. specialize (HN n Hn).
  assert (Hn0 : 0 <= INR n) by apply pos_INR.
  assert (Hid : 0 < / d) by (apply Rinv_0_lt_compat; exact Hd).
  rewrite <- (Rinv_inv d).
  apply Rinv_lt_contravar; [apply Rmult_lt_0_compat |]; lra.
Qed.

Section HalfLine.

Lemma dom_inf_iff (a b : R) : closed_inside half_line a b <-> 0 < a <= b.
Proof.
  unfold closed_inside, half_line. split.
  - intros [Hab H]. split; [apply H; lra | exact Hab].
  - intros [Ha Hab]. split; [exact Hab | intros x Hx; lra].
Qed.

Lemma near_0_inf_mono (P Q : R -> R -> Prop) :
  (forall a b, closed_inside half_line a b -> P a b -> Q a b) -> near_0_inf P -> near_0_inf Q.
Proof.
  intros HPQ (d & M & Hd & H).
  exists d, M. split; [exact Hd |].
  intros a b Ha Hb Hab. apply HPQ; [| apply H; assumption].
  apply dom_inf_iff. lra.
Qed.

Lemma near_0_inf_cofinal (a0 b0 : R) :
  closed_inside half_line a0 b0 -> near_0_inf (fun a b => a <= a0 /\ b0 <= b).
Proof.
  intros Hd. apply dom_inf_iff in Hd.
  exists a0, b0. split; [lra |]. intros a b Ha Hb _. lra.
Qed.

Lemma near_0_inf_seq (P : R -> R -> Prop) :
  near_0_inf P ->
  exists N, forall n, (N <= n)%nat -> P (seq_inf_a n) (seq_inf_b n).
Proof.
  intros (d & M & Hd & H).
  destruct (INR_above M) as [N1 HN1].
  destruct (Rinv_below d 2 Hd ltac:(lra)) as [N2 HN2].
  exists (Nat.max N1 N2). intros n Hn.
  assert (Hn0 : 0 <= INR n) by apply pos_INR.
  assert (Hpos : 0 < / (INR n + 2)) by (apply Rinv_0_lt_compat; lra).
  unfold seq_inf_a, seq_inf_b. apply H.
  - split; [exact Hpos | apply HN2; lia].
  - specialize (HN1 n ltac:(lia)). lra.
  - apply Rle_trans with 1; [| lra].
    rewrite <- Rinv_1. apply Rinv_le_contravar; lra.
Qed.

Lemma seq_inf_dom (n : nat) : closed_inside half_line (seq_inf_a n) (seq_inf_b n).
Proof.
  assert (Hn0 : 0 <= INR n) by apply pos_INR.
  assert (Hpos : 0 < / (INR n + 2)) by (apply Rinv_0_lt_compat; lra).
  apply dom_inf_iff. unfold seq_inf_a, seq_inf_b.
  split; [exact Hpos |].
  apply Rle_trans with 1; [| lra].
  rewrite <- Rinv_1. apply Rinv_le_contravar; lra.
Qed.

Lemma integral_0_inf_seq_cv (f : R -> R) (I : R) :
  is_integral_0_inf f I ->
  Un_cv (fun n => RInt f (seq_inf_a n) (seq_inf_b n)) I.
Proof. apply (improper_seq_cv near_0_inf seq_inf_a seq_inf_b near_0_inf_seq). Qed.

Lemma is_integral_0_inf_unique (f : R -> R) (I J : R) :
  is_integral_0_inf f I -> is_integral_0_inf f J -> I = J.
Proof. apply (improper_unique near_0_inf seq_inf_a seq_inf_b near_0_inf_seq). Qed.

Lemma integral_0_inf_eq (f : R -> R) (I : R) :
  is_integral_0_inf f I -> integral_0_inf f = I.
Proof.
  intros HI. apply (is_integral_0_inf_unique f); [| exact HI].
  unfold integral_0_inf.
  apply (epsilon_spec (inhabits 0) (is_integral_0_inf f)).
  exists I; exact HI.
Qed.

Lemma integral_0_inf_exists (f : R -> R) (B : R) :
  (forall x, 0 < x -> continuity_pt f x) ->
  (forall x, 0 < x -> 0 <= f x) ->
  (forall a b, 0 < a <= b -> RInt f a b <= B) ->
  is_integral_0_inf f (integral_0_inf f) /\
  (forall a b, 0 < a <= b -> RInt f a b <= integral_0_inf f) /\
  integral_0_inf f <= B.
Proof.
  intros Hc Hp HB.
  destruct (improper_exists half_line near_0_inf seq_inf_a seq_inf_b
              near_0_inf_mono near_0_inf_cofinal seq_inf_dom f Hc Hp B)
    as (I & HI & Hub & HIB).
  { intros a b Hd. apply HB, dom_inf_iff, Hd. }
  rewrite (integral_0_inf_eq f I HI).
  split; [exact HI | split; [| exact HIB]].
  intros a b Hab. apply Hub, dom_inf_iff, Hab.
Qed.

End HalfLine.

Section UnitInterval.

Lemma dom_01_iff (a b : R) : closed_inside unit_interval a b <-> 0 < a /\ a <= b /\ b < 1.
Proof.
  unfold closed_inside, unit_interval. split.
  - intros [Hab H]. pose proof (H a ltac:(lra)). pose proof (H b ltac:(lra)). lra.
  - intros (Ha & Hab & Hb). split; [exact Hab | intros x Hx; lra].
Qed.

Lemma near_0_1_mono (P Q : R -> R -> Prop) :
  (forall a b, closed_inside unit_interval a b -> P a b -> Q a b) -> near_0_1 P -> near_0_1 Q.
Proof.
  intros HPQ (d & Hd & H).
  exists d. split; [exact Hd |].
  intros a b Ha Hb Hab. apply HPQ; [| apply H; assumption].
  apply dom_01_iff. lra.
Qed.

Lemma near_0_1_cofinal (a0 b0 : R) :
  closed_inside unit_interval a0 b0 -> near_0_1 (fun a b => a <= a0 /\ b0 <= b).
Proof.
  intros Hd. apply dom_01_iff in Hd.
  exists (Rmin a0 (1 - b0)). split.
  - apply Rmin_glb_lt; lra.
  - intros a b Ha Hb _.
    pose proof (Rmin_l a0 (1 - b0)). pose proof (Rmin_r a0 (1 - b0)). lra.
Qed.

Lemma seq_01_bounds (n : nat) : 0 < / (INR n + 3) <= / 3.
Proof.
  assert (Hn0 : 0 <= INR n) by apply pos_INR.
  split; [apply Rinv_0_lt_compat; lra | apply Rinv_le_contravar; lra].
Qed.

Lemma near_0_1_seq (P : R -> R -> Prop) :
  near_0_1 P ->
  exists N, forall n, (N <= n)%nat -> P (seq_01_a n) (seq_01_b n).
Proof.
  intros (d & Hd & H).
  destruct (Rinv_below d 3 Hd ltac:(lra)) as [N HN].
  exists N. intros n Hn. specialize (HN n Hn).
  pose proof (seq_01_bounds n) as Hb.
  unfold seq_01_a, seq_01_b. apply H; lra.
Qed.

Lemma seq_01_dom (n : nat) : closed_inside unit_interval (seq_01_a n) (seq_01_b n).
Proof.
  pose proof (seq_01_bounds n) as Hb.
  apply dom_01_iff. unfold seq_01_a, seq_01_b. lra.
Qed.

Lemma integral_0_1_seq_cv (f : R -> R) (I : R) :
  is_integral_0_1 f I ->
  Un_cv (fun n => RInt f (seq_01_a n) (seq_01_b n)) I.
Proof. apply (improper_seq_cv near_0_1 seq_01_a seq_01_b near_0_1_seq). Qed.

Lemma is_integral_0_1_unique (f : R -> R) (I J : R) :
  is_integral_0_1 f I -> is_integral_0_1 f J -> I = J.
Proof. apply (improper_unique near_0_1 seq_01_a seq_01_b near_0_1_seq). Qed.

Lemma integral_0_1_eq (f : R -> R) (I : R) :
  is_integral_0_1 f I -> integral_0_1 f = I.
Proof.
  intros HI. apply (is_integral_0_1_unique f); [| exact HI].
  unfold integral_0_1.
  apply (epsilon_spec (inhabits 0) (is_integral_0_1 f)).
  exists I; exact HI.
Qed.

Lemma integral_0_1_exists (f : R -> R) (B : R) :
  (forall x, 0 < x < 1 -> continuity_pt f x) ->
  (forall x, 0 < x < 1 -> 0 <= f x) ->
  (forall a b, 0 < a /\ a <= b /\ b < 1 -> RInt f a b <= B) ->
  is_integral_0_1 f (integral_0_1 f) /\
  (forall a b, 0 < a /\ a <= b /\ b < 1 -> RInt f a b <= integral_0_1 f) /\
  integral_0_1 f <= B.
Proof.
  intros Hc Hp HB.
  destruct (improper_exists unit_interval near_0_1 seq_01_a seq_01_b
              near_0_1_mono near_0_1_cofinal seq_01_dom f Hc Hp B)
    as (I & HI & Hub & HIB).
  { intros a b Hd. apply HB, dom_01_iff, Hd. }
  rewrite (integral_0_1_eq f I HI).
  split; [exact HI | split; [| exact HIB]].
  intros a b Hab. apply Hub, dom_01_iff, Hab.
Qed.

End UnitInterval.

(** ** Derivatives and continuity of the integrands *)

Lemma derivable_pt_lim_eq (f : R -> R) (x l l' : R) :
  derivable_pt_lim f x l -> l = l' -> derivable_pt_lim f x l'.
Proof. intros H <-. exact H. Qed.

Lemma derivable_pt_lim_continuity (f : R -> R) (x l : R) :
  derivable_pt_lim f x l -> continuity_pt f x.
Proof.
  intros H. apply derivable_continuous_pt. exists l. exact H.
Qed.

Lemma derivable_pt_lim_exp_opp (c x : R) :
  derivable_pt_lim (fun x => exp (- (c * x))) x (- c * exp (- (c * x))).
Proof.
  assert (H1 : derivable_pt_lim (fun x => - (c * x)) x (- c)).
  { apply derivable_pt_lim_eq with (- (c * 1)); [| ring].
    apply (derivable_pt_lim_opp (fun x => c * x)).
    apply (derivable_pt_lim_scal id c x 1), derivable_pt_lim_id. }
  apply derivable_pt_lim_eq with (exp (- (c * x)) * - c); [| ring].
  apply (derivable_pt_lim_comp (fun x => - (c * x)) exp x (- c) _ H1).
  apply derivable_pt_lim_exp.
Qed.

Lemma derivable_pt_lim_exp_neg (x : R) :
  derivable_pt_lim (fun x => exp (- x)) x (- exp (- x)).
Proof.
  apply derivable_pt_lim_eq with (- 1 * exp (- (1 * x)));
    [| rewrite Rmult_1_l; ring].
  apply derivable_pt_lim_ext with (fun x => exp (- (1 * x))).
  - intros z. rewrite Rmult_1_l. reflexivity.
  - apply derivable_pt_lim_exp_opp.
Qed.

(** [x^y] in the variable [1 - x]. *)
Lemma derivable_pt_lim_power_mirror (x y : R) :
  x < 1 ->
  derivable_pt_lim (fun x => Rpower (1 - x) y) x (- (y * Rpower (1 - x) (y - 1))).
Proof.
  intros Hx.
  assert (H1 : derivable_pt_lim (fun x => 1 - x) x (- 1)).
  { apply derivable_pt_lim_eq with (0 - 1); [| ring].
    apply (derivable_pt_lim_minus (fct_cte 1) id).
    - apply derivable_pt_lim_const.
    - apply derivable_pt_lim_id. }
  apply derivable_pt_lim_eq with (y * Rpower (1 - x) (y - 1) * - 1); [| ring].
  apply (derivable_pt_lim_comp (fun x => 1 - x) (fun u => Rpower u y) x _ _ H1).
  apply derivable_pt_lim_power. lra.
Qed.

Lemma Rpower_continuity (x y : R) :
  0 < x -> continuity_pt (fun x => Rpower x y) x.
Proof.
  intros Hx. eapply derivable_pt_lim_continuity.
  apply derivable_pt_lim_power; exact Hx.
Qed.

Lemma Rpower_mirror_continuity (x y : R) :
  x < 1 -> continuity_pt (fun x => Rpower (1 - x) y) x.
Proof.
  intros Hx. eapply derivable_pt_lim_continuity.
  apply derivable_pt_lim_power_mirror; exact Hx.
Qed.

Lemma exp_neg_continuity (x : R) : continuity_pt (fun x => exp (- x)) x.
Proof.
  eapply derivable_pt_lim_continuity. apply derivable_pt_lim_exp_neg.
Qed.

Lemma Gamma_integrand_continuity (z x : R) :
  0 < x -> continuity_pt (Gamma_integrand z) x.
Proof.
  intros Hx.
  apply (continuity_pt_mult (fun x => Rpower x (z - 1)) (fun x => exp (- x))).
  - apply Rpower_continuity; exact Hx.
  - apply exp_neg_continuity.
Qed.

Lemma Beta_integrand_continuity (alpha beta x : R) :
  0 < x < 1 -> continuity_pt (Beta_integrand alpha beta) x.
Proof.
  intros Hx.
  apply (continuity_pt_mult (fun x => Rpower x (alpha - 1))
                            (fun x => Rpower (1 - x) (beta - 1))).
  - apply Rpower_continuity; lra.
  - apply Rpower_mirror_continuity; lra.
Qed.

Lemma Rpower_pos (x y : R) : 0 < Rpower x y.
Proof. unfold Rpower. apply exp_pos. Qed.

Lemma Gamma_integrand_pos (z x : R) : 0 < Gamma_integrand z x.
Proof.
  unfold Gamma_integrand. apply Rmult_lt_0_compat; [apply Rpower_pos | apply exp_pos].
Qed.

Lemma Beta_integrand_pos (alpha beta x : R) : 0 < Beta_integrand alpha beta x.
Proof.
  unfold Beta_integrand. apply Rmult_lt_0_compat; apply Rpower_pos.
Qed.

(** The derivation of the estimate: the derivative of the log likelihood,
    and its only zero. *)
Lemma LL_derivative (n k : nat) (p : R) :
  0 < p < 1 -> derivable_pt_lim (LL n k) p (dLL n k p).
Proof.
  intros Hp. unfold LL, dLL.
  assert (H1 : derivable_pt_lim (fun p => ln (1 - p)) p (- / (1 - p))).
  { apply derivable_pt_lim_eq with (/ (1 - p) * - 1); [| ring].
    apply (derivable_pt_lim_comp (fun p => 1 - p) ln).
    - apply derivable_pt_lim_eq with (0 - 1); [| ring].
      apply (derivable_pt_lim_minus (fct_cte 1) id).
      + apply derivable_pt_lim_const.
      + apply derivable_pt_lim_id.
    - apply derivable_pt_lim_ln. lra. }
  apply derivable_pt_lim_eq
    with (0 + INR k * / p + (INR n - INR k) * - / (1 - p));
    [| unfold Rdiv; ring].
  apply (derivable_pt_lim_plus
           (fun p => ln (binom n k) + INR k * ln p)
           (fun p => (INR n - INR k) * ln (1 - p))).
  - apply (derivable_pt_lim_plus (fct_cte (ln (binom n k)))
                                 (fun p => INR k * ln p)).
    + apply derivable_pt_lim_const.
    + apply (derivable_pt_lim_scal ln). apply derivable_pt_lim_ln. lra.
  - apply (derivable_pt_lim_scal (fun p => ln (1 - p))). exact H1.
Qed.

Lemma dLL_zero_iff (n k : nat) (p : R) :
  (0 < n)%nat -> 0 < p < 1 -> dLL n k p = 0 <-> p = MLE n k.
Proof.
  intros Hn Hp.
  assert (H0 : 0 < INR n) by (apply lt_0_INR; exact Hn).
  unfold dLL, MLE.
  replace (INR k / p - (INR n - INR k) / (1 - p))
    with ((INR k - INR n * p) / (p * (1 - p))) by (field; lra).
  assert (Hpp : 0 < p * (1 - p)) by (apply Rmult_lt_0_compat; lra).
  split.
  - intros H.
    assert (E : INR k - INR n * p = 0).
    { apply Rmult_eq_reg_r with (/ (p * (1 - p))).
      - rewrite Rmult_0_l. exact H.
      - apply Rinv_neq_0_compat. lra. }
    apply Rmult_eq_reg_l with (INR n); [| lra].
    unfold Rdiv. rewrite <- Rmult_assoc, Rinv_r_simpl_m by lra. lra.
  - intros ->. unfold Rdiv.
    replace (INR k - INR n * (INR k * / INR n)) with 0 by (field; lra).
    ring.
Qed.

(** ** The Gamma integral converges *)

(** A power grows slower than any exponential. *)
Lemma Rpower_le_exp (t c x : R) :
  0 < t -> 0 < c -> 0 < x ->
  Rpower x t <= exp (t * (ln (t / c) - 1)) * exp (c * x).
Proof.
  intros Ht Hc Hx.
  rewrite <- exp_plus. unfold Rpower. apply exp_le_compat.
  assert (Htc : 0 < t / c) by (apply Rdiv_lt_0_compat; assumption).
  rewrite (ln_div x (t / c)) by assumption.
  assert (H : ln (x / (t / c)) <= x / (t / c) - 1).
  { apply ln_le_minus_1. apply Rdiv_lt_0_compat; assumption. }
  apply Rmult_le_compat_l with (r := t) in H; [| lra].
  replace (t * (x / (t / c) - 1)) with (c * x - t) in H by (field; lra).
  lra.
Qed.

Section GammaBound.

Variable z : R.
Hypothesis Hz : 0 < z.

Lemma Gamma_integrand_le_power (x : R) :
  0 < x -> Gamma_integrand z x <= Rpower x (z - 1).
Proof.
  intros Hx. unfold Gamma_integrand.
  rewrite <- (Rmult_1_r (Rpower x (z - 1))) at 2.
  apply Rmult_le_compat_l; [left; apply Rpower_pos |].
  apply exp_neg_le_1. lra.
Qed.

Lemma Gamma_integrand_le_exp (x : R) :
  1 <= x -> Gamma_integrand z x <= Gamma_tail_constant z * exp (- (/ 2 * x)).
Proof.
  intros Hx. unfold Gamma_integrand, Gamma_tail_constant.
  set (t := Gamma_tail_exponent z).
  set (K := exp (t * (ln (t / / 2) - 1))).
  assert (Ht : 1 <= t) by apply Rmax_r.
  assert (Hzt : z - 1 <= t) by apply Rmax_l.
  assert (H1 : Rpower x (z - 1) <= Rpower x t) by (apply Rle_Rpower; assumption).
  assert (H2 : Rpower x t <= K * exp (/ 2 * x))
    by (apply Rpower_le_exp; lra).
  replace (K * exp (- (/ 2 * x))) with (K * exp (/ 2 * x) * exp (- x)).
  - apply Rmult_le_compat_r; [left; apply exp_pos | lra].
  - rewrite Rmult_assoc, <- exp_plus. do 2 f_equal. lra.
Qed.

Lemma Gamma_partial_bound (a b : R) :
  0 < a <= b ->
  RInt (Gamma_integrand z) a b <= / z + 2 * Gamma_tail_constant z.
Proof.
  intros [Ha Hab].
  set (K := Gamma_tail_constant z).
  assert (HK : 0 < K) by apply exp_pos.
  assert (Ha' : 0 < Rmin a 1) by (apply Rmin_glb_lt; lra).
  pose proof (Rmin_l a 1). pose proof (Rmin_r a 1).
  pose proof (Rmax_l b 1). pose proof (Rmax_r b 1).
  apply (RInt_split_bound (Gamma_integrand z)
           (fun x => Rpower x (z - 1)) (fun x => K * exp (- (/ 2 * x)))
           (fun x => / z * Rpower x z) (fun x => - (2 * K) * exp (- (/ 2 * x)))
           a b (Rmin a 1) (Rmax b 1) 1); try lra.
  - intros x Hx. apply Gamma_integrand_continuity. lra.
  - intros x Hx. left. apply Gamma_integrand_pos.
  - intros x Hx. apply Rpower_continuity. lra.
  - intros x Hx.
    apply (derivable_pt_lim_continuity _ x (K * (- / 2 * exp (- (/ 2 * x))))).
    apply (derivable_pt_lim_scal (fun x => exp (- (/ 2 * x))) K).
    apply derivable_pt_lim_exp_opp.
  - intros x Hx. apply Gamma_integrand_le_power. lra.
  - intros x Hx. apply Gamma_integrand_le_exp. lra.
  - intros x Hx.
    apply derivable_pt_lim_eq with (/ z * (z * Rpower x (z - 1))); [| field; lra].
    apply (derivable_pt_lim_scal (fun x => Rpower x z) (/ z)).
    apply derivable_pt_lim_power. lra.
  - intros x Hx.
    apply derivable_pt_lim_eq with (- (2 * K) * (- / 2 * exp (- (/ 2 * x))));
      [| field].
    apply (derivable_pt_lim_scal (fun x => exp (- (/ 2 * x))) (- (2 * K))).
    apply derivable_pt_lim_exp_opp.
  - assert (H3 : 0 < Rpower (Rmin a 1) z) by apply Rpower_pos.
    assert (H4 : 0 < / z) by (apply Rinv_0_lt_compat; exact Hz).
    assert (H5 : Rpower 1 z = 1).
    { unfold Rpower. rewrite ln_1, Rmult_0_r. apply exp_0. }
    rewrite H5.
    assert (0 < / z * Rpower (Rmin a 1) z) by (apply Rmult_lt_0_compat; assumption).
    lra.
  - assert (H3 : 0 < exp (- (/ 2 * Rmax b 1))) by apply exp_pos.
    assert (H4 : exp (- (/ 2 * 1)) <= 1) by (apply exp_neg_le_1; lra).
    assert (0 < 2 * K * exp (- (/ 2 * Rmax b 1))) by (apply Rmult_lt_0_compat; lra).
    assert (2 * K * exp (- (/ 2 * 1)) <= 2 * K * 1)
      by (apply Rmult_le_compat_l; lra).
    lra.
Qed.

End GammaBound.

Lemma Gamma_spec (z : R) :
  0 < z ->
  is_integral_0_inf (Gamma_integrand z) (Gamma z) /\
  (forall a b, 0 < a <= b -> RInt (Gamma_integrand z) a b <= Gamma z).
Proof.
  intros Hz.
  destruct (integral_0_inf_exists (Gamma_integrand z) _
              (fun x Hx => Gamma_integrand_continuity z x Hx)
              (fun x _ => Rlt_le _ _ (Gamma_integrand_pos z x))
              (Gamma_partial_bound z Hz)) as (H1 & H2 & _).
  split; assumption.
Qed.

Lemma RInt_pos_power_exp (z : R) : 0 < RInt (Gamma_integrand z) 1 2.
Proof.
  pose (m := Rmin 1 (Rpower 2 (z - 1)) * exp (- 2)).
  assert (Hm : 0 < m).
  { apply Rmult_lt_0_compat; [| apply exp_pos].
    apply Rmin_glb_lt; [lra | apply Rpower_pos]. }
  apply Rlt_le_trans with (m * (2 - 1)); [lra |].
  apply RInt_ge_const; [lra | |].
  - intros x Hx. apply Gamma_integrand_continuity. lra.
  - intros x Hx. unfold m, Gamma_integrand.
    apply Rmult_le_compat.
    + left. apply Rmin_glb_lt; [lra | apply Rpower_pos].
    + left. apply exp_pos.
    + destruct (Rle_or_lt 0 (z - 1)) as [H | H].
      * apply Rle_trans with 1; [apply Rmin_l |].
        apply Rle_trans with (Rpower x 0); [rewrite Rpower_O; lra |].
        apply Rle_Rpower; lra.
      * apply Rle_trans with (Rpower 2 (z - 1)); [apply Rmin_r |].
        rewrite <- (Ropp_involutive (z - 1)).
        rewrite (Rpower_Ropp 2), (Rpower_Ropp x).
        apply Rinv_le_contravar; [apply Rpower_pos |].
        apply Rle_Rpower_l; lra.
    + apply exp_le_compat. lra.
Qed.

Lemma Gamma_pos (z : R) : 0 < z -> 0 < Gamma z.
Proof.
  intros Hz. destruct (Gamma_spec z Hz) as [_ H].
  apply Rlt_le_trans with (RInt (Gamma_integrand z) 1 2).
  - apply RInt_pos_power_exp.
  - apply H. lra.
Qed.

(** ** Limits along the sequences of intervals *)

Lemma Un_cv_squeeze_0 (u v : nat -> R) :
  (forall n, 0 <= u n <= v n) -> Un_cv v 0 -> Un_cv u 0.
Proof.
  intros Huv Hv eps Heps.
  destruct (Hv eps Heps) as [N HN]. exists N. intros n Hn.
  specialize (HN n Hn). specialize (Huv n).
  unfold Rdist in *. rewrite Rminus_0_r in *.
  rewrite Rabs_right by lra.
  apply Rle_lt_trans with (v n); [lra |].
  rewrite Rabs_right in HN by lra. exact HN.
Qed.

Lemma Un_cv_Rinv_shift (c : R) : 0 < c -> Un_cv (fun n => / (INR n + c)) 0.
Proof.
  intros Hc eps Heps.
  destruct (Rinv_below eps c Heps Hc) as [N HN]. exists N. intros n Hn.
  assert (Hn0 : 0 <= INR n) by apply pos_INR.
  assert (Hpos : 0 < / (INR n + c)) by (apply Rinv_0_lt_compat; lra).
  unfold Rdist. rewrite Rminus_0_r, Rabs_right by lra.
  apply HN; exact Hn.
Qed.

Lemma Un_cv_Rpower_0 (u : nat -> R) (z : R) :
  0 < z -> (forall n, 0 < u n) -> Un_cv u 0 ->
  Un_cv (fun n => Rpower (u n) z) 0.
Proof.
  intros Hz Hu Hcv eps Heps.
  destruct (Hcv (Rpower eps (/ z)) (Rpower_pos _ _)) as [N HN].
  exists N. intros n Hn. specialize (HN n Hn). specialize (Hu n).
  unfold Rdist in *. rewrite Rminus_0_r in *.
  rewrite Rabs_right in HN by lra.
  rewrite Rabs_right by (left; apply Rpower_pos).
  apply Rlt_le_trans with (Rpower (Rpower eps (/ z)) z).
  - apply Rlt_Rpower_l; [exact Hz | lra].
  - rewrite Rpower_mult, Rinv_l by lra. rewrite Rpower_1 by exact Heps. lra.
Qed.

Lemma Un_cv_scal (u : nat -> R) (c l : R) :
  Un_cv u l -> Un_cv (fun n => c * u n) (c * l).
Proof.
  intros H. apply (CV_mult (fun _ => c) u c l); [| exact H].
  intros eps Heps. exists 0%nat. intros n _.
  unfold Rdist. rewrite Rminus_diag, Rabs_R0. exact Heps.
Qed.

Lemma seq_inf_a_pos (n : nat) : 0 < seq_inf_a n.
Proof.
  unfold seq_inf_a. apply Rinv_0_lt_compat.
  pose proof (pos_INR n). lra.
Qed.

Lemma seq_inf_a_le_b (n : nat) : seq_inf_a n <= seq_inf_b n.
Proof.
  unfold seq_inf_a, seq_inf_b. pose proof (pos_INR n).
  apply Rle_trans with 1; [| lra].
  rewrite <- Rinv_1. apply Rinv_le_contravar; lra.
Qed.

Lemma seq_inf_b_ge_2 (n : nat) : 2 <= seq_inf_b n.
Proof. unfold seq_inf_b. pose proof (pos_INR n). lra. Qed.

Lemma seq_inf_a_cv : Un_cv seq_inf_a 0.
Proof. apply (Un_cv_Rinv_shift 2). lra. Qed.

Lemma exp_neg_le_inv (x : R) : 0 < x -> exp (- x) <= / x.
Proof.
  intros Hx. rewrite exp_Ropp.
  apply Rinv_le_contravar; [exact Hx |].
  pose proof (exp_ineq1_le x). lra.
Qed.

(** [x^t e^(-x)] vanishes at infinity. *)
Lemma power_exp_cv_0 (t : R) :
  0 < t ->
  Un_cv (fun n => Rpower (seq_inf_b n) t * exp (- seq_inf_b n)) 0.
Proof.
  intros Ht.
  pose (K := exp (t * (ln (t / / 2) - 1))).
  apply Un_cv_squeeze_0 with (fun n => (2 * K) * / (INR n + 2)).
  - intros n. pose proof (seq_inf_b_ge_2 n) as Hb. split.
    + left. apply Rmult_lt_0_compat; [apply Rpower_pos | apply exp_pos].
    + assert (H1 : Rpower (seq_inf_b n) t <= K * exp (/ 2 * seq_inf_b n))
        by (apply Rpower_le_exp; lra).
      assert (H2 : exp (- (/ 2 * seq_inf_b n)) <= / (/ 2 * seq_inf_b n))
        by (apply exp_neg_le_inv; lra).
      assert (HK : 0 < K) by apply exp_pos.
      apply Rle_trans with (K * exp (/ 2 * seq_inf_b n) * exp (- seq_inf_b n)).
      * apply Rmult_le_compat_r; [left; apply exp_pos | exact H1].
      * rewrite Rmult_assoc, <- exp_plus.
        replace (/ 2 * seq_inf_b n + - seq_inf_b n) with (- (/ 2 * seq_inf_b n))
          by lra.
        apply Rle_trans with (K * / (/ 2 * seq_inf_b n)).
        -- apply Rmult_le_compat_l; lra.
        -- unfold seq_inf_b. pose proof (pos_INR n). right. field. lra.
  - rewrite <- (Rmult_0_r (2 * K)). apply Un_cv_scal.
    apply Un_cv_Rinv_shift. lra.
Qed.

(** [x^t e^(-x)] vanishes at zero. *)
Lemma power_exp_cv_0_left (t : R) :
  0 < t ->
  Un_cv (fun n => Rpower (seq_inf_a n) t * exp (- seq_inf_a n)) 0.
Proof.
  intros Ht.
  apply Un_cv_squeeze_0 with (fun n => Rpower (seq_inf_a n) t).
  - intros n. pose proof (seq_inf_a_pos n). split.
    + left. apply Rmult_lt_0_compat; [apply Rpower_pos | apply exp_pos].
    + rewrite <- (Rmult_1_r (Rpower (seq_inf_a n) t)) at 2.
      apply Rmult_le_compat_l; [left; apply Rpower_pos |].
      apply exp_neg_le_1. lra.
  - apply Un_cv_Rpower_0; [exact Ht | apply seq_inf_a_pos | apply seq_inf_a_cv].
Qed.

(** ** The Gamma function on the positive integers *)

Lemma Gamma_seq_cv (z : R) :
  0 < z ->
  Un_cv (fun n => RInt (Gamma_integrand z) (seq_inf_a n) (seq_inf_b n)) (Gamma z).
Proof.
  intros Hz. apply integral_0_inf_seq_cv, Gamma_spec, Hz.
Qed.

Lemma Gamma_integrand_parts (z x : R) :
  0 < z -> 0 < x ->
  derivable_pt_lim (fun x => - (Rpower x z * exp (- x))) x
    (Gamma_integrand (z + 1) x + - z * Gamma_integrand z x).
Proof.
  intros Hz Hx. unfold Gamma_integrand.
  replace (z + 1 - 1) with z by ring.
  apply derivable_pt_lim_eq
    with (- (z * Rpower x (z - 1) * exp (- x) + Rpower x z * - exp (- x)));
    [| ring].
  apply (derivable_pt_lim_opp (fun x => Rpower x z * exp (- x))).
  apply (derivable_pt_lim_mult (fun x => Rpower x z) (fun x => exp (- x))).
  - apply derivable_pt_lim_power; exact Hx.
  - apply derivable_pt_lim_exp_neg.
Qed.

Lemma Gamma_partial_parts (z a b : R) :
  0 < z -> 0 < a <= b ->
  RInt (Gamma_integrand (z + 1)) a b - z * RInt (Gamma_integrand z) a b
    = Rpower a z * exp (- a) - Rpower b z * exp (- b).
Proof.
  intros Hz [Ha Hab].
  assert (Hc : forall w, cont_on (Gamma_integrand w) a b).
  { intros w x Hx. apply Gamma_integrand_continuity. lra. }
  transitivity (RInt (fun x => Gamma_integrand (z + 1) x
                                 + - z * Gamma_integrand z x) a b).
  - rewrite RInt_linear by (exact Hab || apply Hc). ring.
  - rewrite (RInt_primitive _ (fun x => - (Rpower x z * exp (- x)))).
    + ring.
    + exact Hab.
    + intros x Hx.
      apply (continuity_pt_plus (Gamma_integrand (z + 1))
               (fun x => - z * Gamma_integrand z x)).
      * apply Hc; exact Hx.
      * apply (continuity_pt_scal (Gamma_integrand z)). apply Hc; exact Hx.
    + intros x Hx. apply Gamma_integrand_parts; lra.
Qed.

(** [Gamma(z + 1) = z Gamma(z)]. *)
Lemma Gamma_succ (z : R) : 0 < z -> Gamma (z + 1) = z * Gamma z.
Proof.
  intros Hz.
  apply Rminus_diag_uniq.
  apply (UL_sequence
           (fun n => RInt (Gamma_integrand (z + 1)) (seq_inf_a n) (seq_inf_b n)
                     - z * RInt (Gamma_integrand z) (seq_inf_a n) (seq_inf_b n))).
  - apply CV_minus; [apply Gamma_seq_cv; lra |].
    apply Un_cv_scal, Gamma_seq_cv, Hz.
  - apply Un_cv_ext
      with (fun n => Rpower (seq_inf_a n) z * exp (- seq_inf_a n)
                     - Rpower (seq_inf_b n) z * exp (- seq_inf_b n)).
    + intros n. symmetry. apply Gamma_partial_parts; [exact Hz |].
      split; [apply seq_inf_a_pos | apply seq_inf_a_le_b].
    + replace 0 with (0 - 0) by ring.
      apply CV_minus; [apply power_exp_cv_0_left | apply power_exp_cv_0];
        exact Hz.
Qed.

Lemma Gamma_1 : Gamma 1 = 1.
Proof.
  apply (UL_sequence
           (fun n => RInt (Gamma_integrand 1) (seq_inf_a n) (seq_inf_b n))).
  - apply Gamma_seq_cv. lra.
  - apply Un_cv_ext
      with (fun n => exp (- seq_inf_a n) - exp (- seq_inf_b n)).
    + intros n. symmetry.
      pose proof (seq_inf_a_pos n) as Ha. pose proof (seq_inf_a_le_b n) as Hab.
      rewrite (RInt_primitive _ (fun x => - exp (- x))).
      * ring.
      * exact Hab.
      * intros x Hx. apply Gamma_integrand_continuity. lra.
      * intros x Hx. unfold Gamma_integrand.
        apply derivable_pt_lim_eq with (- - exp (- x)).
        -- apply (derivable_pt_lim_opp (fun x => exp (- x))).
           apply derivable_pt_lim_exp_neg.
        -- replace (1 - 1) with 0 by ring.
           rewrite Rpower_O by lra. ring.
    + replace 1 with (exp (- 0) - 0) by (rewrite Ropp_0, exp_0; ring).
      apply CV_minus.
      * apply (continuity_seq (fun x => exp (- x)) seq_inf_a 0).
        -- apply exp_neg_continuity.
        -- apply seq_inf_a_cv.
      * apply Un_cv_squeeze_0 with (fun n => / (INR n + 2)).
        -- intros n. pose proof (seq_inf_b_ge_2 n). split.
           ++ left; apply exp_pos.
           ++ apply (exp_neg_le_inv (seq_inf_b n)). lra.
        -- apply Un_cv_Rinv_shift. lra.
Qed.

Lemma is_integral_0_inf_ext (f g : R -> R) (I : R) :
  (forall x, 0 < x -> continuity_pt f x) ->
  (forall x, 0 < x -> f x = g x) ->
  is_integral_0_inf f I -> is_integral_0_inf g I.
Proof.
  intros Hc Hfg HI eps Heps.
  destruct (HI eps Heps) as (d & M & Hd & H).
  exists d, M. split; [exact Hd |].
  intros a b Ha Hb Hab.
  rewrite <- (RInt_ext f g a b).
  - apply H; assumption.
  - exact Hab.
  - intros x Hx. apply Hc. lra.
  - intros x Hx. apply Hfg. lra.
Qed.

Lemma Gamma_INR_S (m : nat) : Gamma (INR (S m)) = INR (fact m).
Proof.
  induction m as [| m IH].
  - simpl. apply Gamma_1.
  - rewrite S_INR, Gamma_succ by apply lt_0_INR, Nat.lt_0_succ.
    rewrite IH, <- mult_INR. reflexivity.
Qed.

(** C6: for every positive integer [z], the integral of [x^(z-1) e^(-x)]
    from [0] to infinity exists, it is the value [Gamma(z)] of the Gamma
    function, and it equals [(z - 1)!]. *)
Theorem C6_Gamma_positive_integer (z : nat) :
  (0 < z)%nat ->
  is_integral_0_inf (fun x => x ^ (z - 1) * exp (- x)) (INR (fact (z - 1))) /\
  is_integral_0_inf (Gamma_integrand (INR z)) (Gamma (INR z)) /\
  Gamma (INR z) = INR (fact (z - 1)) /\
  Gamma (INR z) = Gamma_int z.
Proof.
  intros Hz. destruct z as [| m]; [lia |].
  assert (Hpos : 0 < INR (S m)) by apply lt_0_INR, Nat.lt_0_succ.
  assert (HG : Gamma (INR (S m)) = INR (fact (S m - 1))).
  { rewrite Gamma_INR_S. simpl. rewrite Nat.sub_0_r. reflexivity. }
  destruct (Gamma_spec (INR (S m)) Hpos) as [Hint _].
  split; [| split; [exact Hint | split; [exact HG | exact HG]]].
  rewrite <- HG.
  apply (is_integral_0_inf_ext (Gamma_integrand (INR (S m)))); [| | exact Hint].
  - intros x Hx. apply Gamma_integrand_continuity; exact Hx.
  - intros x Hx. unfold Gamma_integrand.
    replace (INR (S m) - 1) with (INR (S m - 1)).
    + rewrite Rpower_pow by exact Hx. reflexivity.
    + rewrite S_INR. simpl. rewrite Nat.sub_0_r. ring.
Qed.

Lemma C6_Gamma_positive_integer_witness :
  is_integral_0_inf (fun x => x ^ (4 - 1) * exp (- x)) (INR (fact (4 - 1))) /\
  is_integral_0_inf (Gamma_integrand (INR 4)) (Gamma (INR 4)) /\
  Gamma (INR 4) = INR (fact (4 - 1)) /\
  Gamma (INR 4) = Gamma_int 4.
Proof. apply (C6_Gamma_positive_integer 4). lia. Defined.

(** ** Powers with a real exponent *)

Lemma rpow_pos (x y : R) : 0 < x -> rpow x y = Some (Rpower x y).
Proof.
  intros Hx. unfold rpow. destruct (Rlt_dec 0 x); [reflexivity | contradiction].
Qed.

Lemma rpow_0_pos (y : R) : 0 < y -> rpow 0 y = Some 0.
Proof.
  intros Hy. unfold rpow.
  destruct (Rlt_dec 0 0); [lra |].
  destruct (Rlt_dec y 0); [lra |].
  destruct (Rlt_dec 0 y); [reflexivity | contradiction].
Qed.

Lemma rpow_0_0 : rpow 0 0 = Some 1.
Proof.
  unfold rpow.
  destruct (Rlt_dec 0 0); [lra | reflexivity].
Qed.

Lemma rpow_0_neg (y : R) : y < 0 -> rpow 0 y = None.
Proof.
  intros Hy. unfold rpow.
  destruct (Rlt_dec 0 0); [lra |].
  destruct (Rlt_dec y 0); [reflexivity | contradiction].
Qed.

Lemma rpow_1 (y : R) : rpow 1 y = Some 1.
Proof.
  rewrite rpow_pos by lra. f_equal.
  unfold Rpower. rewrite ln_1, Rmult_0_r. apply exp_0.
Qed.

Lemma rpow_defined (x y : R) :
  0 <= x -> (x = 0 -> 0 <= y) -> exists v, rpow x y = Some v /\ 0 <= v.
Proof.
  intros Hx Hy. destruct Hx as [Hx | <-].
  - exists (Rpower x y). split; [apply rpow_pos; exact Hx | left; apply Rpower_pos].
  - destruct (Hy eq_refl) as [Hy' | <-].
    + exists 0. split; [apply rpow_0_pos; exact Hy' | lra].
    + exists 1. split; [apply rpow_0_0 | lra].
Qed.

(** [x^j x^y = x^(j + y)] wherever [x^y] has a value. *)
Lemma rpow_pow_mult (x y v : R) (j : nat) :
  0 <= x -> rpow x y = Some v -> rpow x (INR j + y) = Some (x ^ j * v).
Proof.
  intros [Hx | <-] Hv.
  - rewrite rpow_pos in Hv by exact Hx. injection Hv as <-.
    rewrite rpow_pos by exact Hx. f_equal.
    rewrite Rpower_plus, Rpower_pow by exact Hx. reflexivity.
  - destruct (Rlt_dec y 0) as [Hy | Hy]; [rewrite rpow_0_neg in Hv by exact Hy; discriminate |].
    destruct j as [| j].
    + simpl. rewrite Rplus_0_l, Rmult_1_l. exact Hv.
    + assert (0 < INR (S j)) by apply lt_0_INR, Nat.lt_0_succ.
      rewrite rpow_0_pos by lra. rewrite pow_i by lia. f_equal. ring.
Qed.

(** ** The posterior is in the Beta family *)

Lemma Beta_kernel_defined (alpha beta p : R) :
  0 <= p <= 1 -> (p = 0 -> 1 <= alpha) -> (p = 1 -> 1 <= beta) ->
  exists v, Beta_kernel alpha beta p = Some v /\ 0 <= v.
Proof.
  intros Hp H0 H1.
  destruct (rpow_defined p (alpha - 1)) as (u & Hu & Hu0);
    [lra | intros E; specialize (H0 E); lra |].
  destruct (rpow_defined (1 - p) (beta - 1)) as (w & Hw & Hw0);
    [lra | intros E; assert (E' : p = 1) by lra; specialize (H1 E'); lra |].
  exists (u * w). unfold Beta_kernel. rewrite Hu, Hw. simpl.
  split; [reflexivity | apply Rmult_le_pos; assumption].
Qed.

Lemma Beta_kernel_posterior (n k : nat) (alpha beta p v : R) :
  (k <= n)%nat -> 0 <= p <= 1 ->
  Beta_kernel alpha beta p = Some v ->
  Beta_kernel (alpha_posterior k alpha) (beta_posterior n k beta) p
    = Some (p ^ k * (1 - p) ^ (n - k) * v).
Proof.
  intros Hkn Hp. unfold Beta_kernel, alpha_posterior, beta_posterior.
  destruct (rpow p (alpha - 1)) as [u |] eqn:Hu; [| discriminate].
  destruct (rpow (1 - p) (beta - 1)) as [w |] eqn:Hw; [| discriminate].
  simpl. intros E; injection E as <-.
  replace (INR k + alpha - 1) with (INR k + (alpha - 1)) by ring.
  replace (INR n - INR k + beta - 1) with (INR (n - k) + (beta - 1))
    by (rewrite minus_INR by exact Hkn; ring).
  rewrite (rpow_pow_mult p _ u k) by (lra || exact Hu).
  rewrite (rpow_pow_mult (1 - p) _ w (n - k)) by (lra || exact Hw).
  simpl. f_equal. ring.
Qed.

Lemma Beta_norm_pos (alpha beta : R) :
  0 < alpha -> 0 < beta -> 0 < Gamma (alpha + beta) / (Gamma alpha * Gamma beta).
Proof.
  intros Ha Hb. apply Rdiv_lt_0_compat.
  - apply Gamma_pos; lra.
  - apply Rmult_lt_0_compat; apply Gamma_pos; assumption.
Qed.

Section Conjugacy.

Variables (n k : nat) (alpha beta : R).
Hypothesis Halpha : 0 < alpha.
Hypothesis Hbeta : 0 < beta.
Hypothesis Hkn : (0 <= k <= n)%nat.

Lemma posterior_parameters_pos :
  0 < alpha_posterior k alpha /\ 0 < beta_posterior n k beta.
Proof.
  assert (Hk : 0 <= INR k) by apply pos_INR.
  assert (Hn : INR k <= INR n) by (apply le_INR; lia).
  unfold alpha_posterior, beta_posterior. lra.
Qed.

Lemma posterior_constant_pos : 0 < posterior_constant n k alpha beta.
Proof.
  destruct posterior_parameters_pos as [Ha Hb].
  unfold posterior_constant, c_const. apply Rdiv_lt_0_compat.
  - apply Rmult_lt_0_compat; [apply binom_pos | apply Beta_norm_pos; assumption].
  - apply Beta_norm_pos; assumption.
Qed.

Lemma unnormalized_posterior_is_Beta (p : R) :
  0 <= p <= 1 -> (p = 0 -> 1 <= alpha) -> (p = 1 -> 1 <= beta) ->
  exists v,
    PDF_Beta (alpha_posterior k alpha) (beta_posterior n k beta) p = Some v /\
    unnormalized_posterior n k alpha beta p
      = Some (posterior_constant n k alpha beta * v).
Proof.
  intros Hp H0 H1.
  destruct (Beta_kernel_defined alpha beta p Hp H0 H1) as (v & Hv & _).
  destruct posterior_parameters_pos as [Ha Hb].
  pose proof (Beta_norm_pos _ _ Ha Hb) as Hnorm.
  unfold unnormalized_posterior, PDF_Beta.
  rewrite (Beta_kernel_posterior n k alpha beta p v) by (lia || assumption).
  rewrite Hv. simpl. eexists. split; [reflexivity |].
  f_equal. unfold posterior_constant, c_const, L. field.
  pose proof (Gamma_pos _ Halpha). pose proof (Gamma_pos _ Hbeta).
  pose proof (Gamma_pos _ Ha). pose proof (Gamma_pos _ Hb).
  pose proof (Gamma_pos (alpha_posterior k alpha + beta_posterior n k beta)
                ltac:(lra)).
  repeat split; lra.
Qed.

End Conjugacy.

(** C2, as stated, fails at the end [p = 0] of the interval: with one
    success in one trial and the prior [Beta(1/2, 1/2)], the prior density
    [p^(-1/2) (1 - p)^(-1/2)] has no value at [p = 0] (it divides by zero),
    so neither has the product, while the density of the updated
    parameters [Beta(3/2, 1/2)] has the value [0] there. *)
Lemma C2_no_constant_on_the_closed_interval :
  0 < / 2 /\ (0 <= 1 <= 1)%nat /\
  ~ exists c : R,
      forall p, 0 <= p <= 1 ->
        oscal (L 1 1 p) (PDF_Beta (/ 2) (/ 2) p)
          = oscal c (PDF_Beta (alpha_posterior 1 (/ 2))
                              (beta_posterior 1 1 (/ 2)) p).
Proof.
  split; [lra | split; [lia |]].
  intros [c Hc]. specialize (Hc 0 ltac:(lra)).
  unfold PDF_Beta, Beta_kernel, alpha_posterior, beta_posterior in Hc.
  rewrite (rpow_0_neg (/ 2 - 1)) in Hc by lra.
  rewrite (rpow_0_pos (INR 1 + / 2 - 1)) in Hc by (simpl; lra).
  replace (1 - 0) with 1 in Hc by ring.
  rewrite !rpow_1 in Hc. simpl in Hc. discriminate Hc.
Qed.

(** The same failure with the total power of the library, for which
    [0^y = 1] whatever [y]: at [p = 0] the likelihood [p^1] is [0] and the
    updated numerator is not, so the constant would be [0], which it is
    not inside the interval. *)
Remark total_power_no_constant_on_the_closed_interval :
  ~ exists c : R,
      forall p, 0 <= p <= 1 ->
        L 1 1 p * (Rpower p (/ 2 - 1) * Rpower (1 - p) (/ 2 - 1))
          = c * (Rpower p (INR 1 + / 2 - 1)
                 * Rpower (1 - p) (INR 1 - INR 1 + / 2 - 1)).
Proof.
  intros [c Hc].
  assert (Hpos : forall a b x y, 0 < Rpower a x * Rpower b y)
    by (intros; apply Rmult_lt_0_compat; apply Rpower_pos).
  assert (Hb : 0 < binom 1 1) by apply binom_pos.
  assert (Hc0 : c = 0).
  { pose proof (Hc 0 ltac:(lra)) as H0. unfold L in H0. simpl pow in H0.
    rewrite !Rmult_0_l, Rmult_0_r, !Rmult_0_l in H0.
    pose proof (Hpos 0 (1 - 0) (INR 1 + / 2 - 1) (INR 1 - INR 1 + / 2 - 1)) as Hp.
    destruct (Rmult_integral _ _ (eq_sym H0)) as [E | E]; [exact E | lra]. }
  pose proof (Hc (/ 2) ltac:(lra)) as H1. rewrite Hc0, Rmult_0_l in H1.
  pose proof (Hpos (/ 2) (1 - / 2) (/ 2 - 1) (/ 2 - 1)) as Hp.
  unfold L in H1. simpl pow in H1.
  assert (0 < binom 1 1 * (/ 2 * 1) * 1) by lra.
  assert (0 < binom 1 1 * (/ 2 * 1) * 1
              * (Rpower (/ 2) (/ 2 - 1) * Rpower (1 - / 2) (/ 2 - 1)))
    by (apply Rmult_lt_0_compat; assumption).
  lra.
Qed.

(** C2, amended: for [0 < alpha], [0 < beta] and [0 <= k <= n] there is a
    constant [c > 0], which does not depend on [p], such that at every
    [p] with [0 < p < 1], and also at [p = 0] when [1 <= alpha] and at
    [p = 1] when [1 <= beta], the Binomial likelihood times the
    [Beta(alpha, beta)] density is [c] times the
    [Beta(k + alpha, n - k + beta)] density. *)
Theorem C2_posterior_stays_in_Beta_family (n k : nat) (alpha beta : R) :
  0 < alpha -> 0 < beta -> (0 <= k <= n)%nat ->
  exists c : R, 0 < c /\
    forall p, 0 <= p <= 1 -> (p = 0 -> 1 <= alpha) -> (p = 1 -> 1 <= beta) ->
      exists v,
        PDF_Beta (INR k + alpha) (INR n - INR k + beta) p = Some v /\
        oscal (L n k p) (PDF_Beta alpha beta p) = Some (c * v).
Proof.
  intros Ha Hb Hkn.
  exists (posterior_constant n k alpha beta). split.
  - apply posterior_constant_pos; assumption.
  - intros p Hp H0 H1.
    apply (unnormalized_posterior_is_Beta n k alpha beta Ha Hb Hkn p Hp H0 H1).
Qed.

Lemma C2_posterior_stays_in_Beta_family_witness :
  exists c : R, 0 < c /\
    forall p, 0 <= p <= 1 -> (p = 0 -> 1 <= 2) -> (p = 1 -> 1 <= 3) ->
      exists v,
        PDF_Beta (INR 3 + 2) (INR 5 - INR 3 + 3) p = Some v /\
        oscal (L 5 3 p) (PDF_Beta 2 3 p) = Some (c * v).
Proof.
  apply (C2_posterior_stays_in_Beta_family 5 3 2 3); [lra | lra | lia].
Defined.

(** ** The mode of the Beta density *)

Lemma Rpower_0_r (x : R) : Rpower x 0 = 1.
Proof. unfold Rpower. rewrite Rmult_0_l. apply exp_0. Qed.

Lemma Rpower_1_l (y : R) : Rpower 1 y = 1.
Proof. unfold Rpower. rewrite ln_1, Rmult_0_r. apply exp_0. Qed.

Lemma Rpower_lt_1 (x y : R) : 0 < x < 1 -> 0 < y -> Rpower x y < 1.
Proof.
  intros Hx Hy. rewrite <- (Rpower_1_l y).
  apply Rlt_Rpower_l; [exact Hy | lra].
Qed.

Lemma Beta_kernel_interior (alpha beta x : R) :
  0 < x < 1 ->
  Beta_kernel alpha beta x
    = Some (Rpower x (alpha - 1) * Rpower (1 - x) (beta - 1)).
Proof.
  intros Hx. unfold Beta_kernel.
  rewrite !rpow_pos by lra. reflexivity.
Qed.

Lemma Beta_kernel_at_0 (alpha beta : R) :
  1 < alpha -> Beta_kernel alpha beta 0 = Some 0.
Proof.
  intros Ha. unfold Beta_kernel.
  rewrite rpow_0_pos by lra.
  replace (1 - 0) with 1 by ring. rewrite rpow_1. simpl.
  f_equal. ring.
Qed.

Lemma Beta_kernel_at_1 (alpha beta : R) :
  1 < beta -> Beta_kernel alpha beta 1 = Some 0.
Proof.
  intros Hb. unfold Beta_kernel.
  replace (1 - 1) with 0 by ring.
  rewrite rpow_0_pos by lra. rewrite rpow_1. simpl.
  f_equal. ring.
Qed.

Lemma Beta_kernel_flat_at_0 (beta : R) : Beta_kernel 1 beta 0 = Some 1.
Proof.
  unfold Beta_kernel.
  replace (1 - 1) with 0 by ring. replace (1 - 0) with 1 by ring.
  rewrite rpow_0_0, rpow_1. simpl. f_equal. ring.
Qed.

Lemma Beta_kernel_flat_at_1 (alpha : R) : Beta_kernel alpha 1 1 = Some 1.
Proof.
  unfold Beta_kernel.
  replace (1 - 1) with 0 by ring.
  rewrite rpow_0_0, rpow_1. simpl. f_equal. ring.
Qed.

(** The mode of the numerator of the density. *)
Lemma Beta_kernel_mode (alpha beta : R) :
  1 <= alpha -> 1 <= beta -> 2 < alpha + beta ->
  is_mode (Beta_kernel alpha beta) (MAP alpha beta).
Proof.
  intros Ha Hb Hab. unfold MAP.
  destruct (Req_dec alpha 1) as [Ea | Ea].
  { (* a decreasing density: the mode is 0 *)
    subst alpha. replace ((1 - 1) / (1 + beta - 2)) with 0
      by (unfold Rdiv; ring).
    split; [lra |]. exists 1. split; [apply Beta_kernel_flat_at_0 |].
    intros x Hx Hne.
    destruct (Req_dec x 1) as [E1 | E1].
    - subst x. exists 0. split; [apply Beta_kernel_at_1; lra | lra].
    - rewrite Beta_kernel_interior by lra. eexists. split; [reflexivity |].
      replace (1 - 1) with 0 by ring. rewrite Rpower_0_r, Rmult_1_l.
      apply Rpower_lt_1; lra. }
  destruct (Req_dec beta 1) as [Eb | Eb].
  { (* an increasing density: the mode is 1 *)
    subst beta. replace ((alpha - 1) / (alpha + 1 - 2)) with 1
      by (field; lra).
    split; [lra |]. exists 1. split; [apply Beta_kernel_flat_at_1 |].
    intros x Hx Hne.
    destruct (Req_dec x 0) as [E0 | E0].
    - subst x. exists 0. split; [apply Beta_kernel_at_0; lra | lra].
    - rewrite Beta_kernel_interior by lra. eexists. split; [reflexivity |].
      replace (1 - 1) with 0 by ring. rewrite Rpower_0_r, Rmult_1_r.
      apply Rpower_lt_1; lra. }
  (* both exponents positive: the mode is inside *)
  set (m := (alpha - 1) / (alpha + beta - 2)).
  assert (Hm : 0 < m < 1).
  { unfold m. split.
    - apply Rdiv_lt_0_compat; lra.
    - apply Rmult_lt_reg_r with (alpha + beta - 2); [lra |].
      unfold Rdiv. rewrite Rmult_assoc, Rinv_l by lra. lra. }
  split; [lra |].
  exists (Rpower m (alpha - 1) * Rpower (1 - m) (beta - 1)).
  split; [apply Beta_kernel_interior; exact Hm |].
  assert (Hpos : 0 < Rpower m (alpha - 1) * Rpower (1 - m) (beta - 1))
    by (apply Rmult_lt_0_compat; apply Rpower_pos).
  intros x Hx Hne.
  destruct (Req_dec x 0) as [E0 | E0].
  { subst x. exists 0. split; [apply Beta_kernel_at_0; lra | exact Hpos]. }
  destruct (Req_dec x 1) as [E1 | E1].
  { subst x. exists 0. split; [apply Beta_kernel_at_1; lra | exact Hpos]. }
  rewrite Beta_kernel_interior by lra. eexists. split; [reflexivity |].
  unfold Rpower. rewrite <- !exp_plus. apply exp_increasing.
  apply weighted_ln_lt; try lra.
  unfold m. field. lra.
Qed.

Lemma is_mode_scal (f : R -> option R) (c m : R) :
  0 < c -> is_mode f m -> is_mode (fun x => oscal c (f x)) m.
Proof.
  intros Hc (Hm & vm & Hvm & H).
  split; [exact Hm |].
  exists (c * vm). split; [rewrite Hvm; reflexivity |].
  intros x Hx Hne. destruct (H x Hx Hne) as (v & Hv & Hlt).
  exists (c * v). split; [rewrite Hv; reflexivity |].
  apply Rmult_lt_compat_l; assumption.
Qed.

(** C4, as stated, fails for the uniform prior: the density of
    [Beta(1, 1)] is constant on [[0, 1]], so it has no unique argmax, and
    [MAP(1, 1)] is the quotient [0 / 0]. *)
Lemma C4_uniform_density_has_no_mode :
  MAP 1 1 = (1 - 1) / (1 + 1 - 2) /\ ~ is_mode (PDF_Beta 1 1) (MAP 1 1).
Proof.
  split; [reflexivity |].
  intros (_ & vm & Hvm & H).
  assert (Hm : MAP 1 1 = 0) by (unfold MAP, Rdiv; ring).
  rewrite Hm in *.
  destruct (H (/ 2) ltac:(lra) ltac:(lra)) as (v & Hv & Hlt).
  unfold PDF_Beta in Hvm, Hv.
  rewrite Beta_kernel_flat_at_0 in Hvm.
  rewrite Beta_kernel_interior in Hv by lra.
  replace (1 - 1) with 0 in Hv by ring.
  rewrite !Rpower_0_r in Hv. simpl in Hvm, Hv.
  injection Hvm as <-. injection Hv as <-. lra.
Qed.

(** C4, amended: for [1 <= alpha] and [1 <= beta], not both equal to [1],
    [MAP(alpha, beta) = (alpha - 1) / (alpha + beta - 2)] is a point of
    [[0, 1]] and the mode of the [Beta(alpha, beta)] density: the density
    has a value there, and at every other point of [[0, 1]] a strictly
    smaller one. *)
Theorem C4_MAP_is_the_mode (alpha beta : R) :
  1 <= alpha -> 1 <= beta -> 2 < alpha + beta ->
  MAP alpha beta = (alpha - 1) / (alpha + beta - 2) /\
  is_mode (PDF_Beta alpha beta) (MAP alpha beta).
Proof.
  intros Ha Hb Hab. split; [reflexivity |].
  apply (is_mode_scal (Beta_kernel alpha beta)).
  - apply Beta_norm_pos; lra.
  - apply Beta_kernel_mode; assumption.
Qed.

Lemma C4_MAP_is_the_mode_witness :
  MAP 3 2 = (3 - 1) / (3 + 2 - 2) /\ is_mode (PDF_Beta 3 2) (MAP 3 2).
Proof. apply (C4_MAP_is_the_mode 3 2); lra. Defined.

(** ** The Beta integral converges *)

Lemma Rpower_le_1 (x y : R) : 0 < x <= 1 -> 0 <= y -> Rpower x y <= 1.
Proof.
  intros Hx Hy. rewrite <- (Rpower_1_l y).
  apply Rle_Rpower_l; [exact Hy | lra].
Qed.

Lemma Rpower_pred (x y : R) : 0 < x -> Rpower x (y - 1) = Rpower x y / x.
Proof.
  intros Hx. unfold Rminus, Rdiv.
  rewrite Rpower_plus, Rpower_Ropp, Rpower_1 by exact Hx. reflexivity.
Qed.

Lemma Rpower_succ (x y : R) : 0 < x -> Rpower x (y + 1) = Rpower x y * x.
Proof.
  intros Hx. rewrite Rpower_plus, Rpower_1 by exact Hx. reflexivity.
Qed.

(** Away from [0] the factor [x^(y - 1)], [0 < y], is at most [2]. *)
Lemma Rpower_pred_le_2 (x y : R) : / 2 <= x <= 1 -> 0 < y -> Rpower x (y - 1) <= 2.
Proof.
  intros Hx Hy. rewrite Rpower_pred by lra.
  assert (H1 : Rpower x y <= 1) by (apply Rpower_le_1; lra).
  assert (H2 : 0 < Rpower x y) by apply Rpower_pos.
  apply Rmult_le_reg_r with x; [lra |].
  unfold Rdiv. rewrite Rmult_assoc, Rinv_l by lra. lra.
Qed.

Section BetaBound.

Variables alpha beta : R.
Hypothesis Halpha : 0 < alpha.
Hypothesis Hbeta : 0 < beta.

Lemma Beta_integrand_le_left (u : R) :
  0 < u <= / 2 -> Beta_integrand alpha beta u <= 2 * Rpower u (alpha - 1).
Proof.
  intros Hu. unfold Beta_integrand. rewrite (Rmult_comm 2).
  apply Rmult_le_compat_l; [left; apply Rpower_pos |].
  apply Rpower_pred_le_2; lra.
Qed.

Lemma Beta_integrand_le_right (u : R) :
  / 2 <= u < 1 -> Beta_integrand alpha beta u <= 2 * Rpower (1 - u) (beta - 1).
Proof.
  intros Hu. unfold Beta_integrand.
  apply Rmult_le_compat_r; [left; apply Rpower_pos |].
  apply Rpower_pred_le_2; lra.
Qed.

Lemma Beta_partial_bound (a b : R) :
  0 < a /\ a <= b /\ b < 1 ->
  RInt (Beta_integrand alpha beta) a b <= 2 / alpha + 2 / beta.
Proof.
  intros (Ha & Hab & Hb).
  assert (Ha' : 0 < Rmin a (/ 2)) by (apply Rmin_glb_lt; lra).
  assert (Hb' : Rmax b (/ 2) < 1) by (apply Rmax_lub_lt; lra).
  pose proof (Rmin_l a (/ 2)). pose proof (Rmin_r a (/ 2)).
  pose proof (Rmax_l b (/ 2)). pose proof (Rmax_r b (/ 2)).
  assert (Hia : 0 < / alpha) by (apply Rinv_0_lt_compat; exact Halpha).
  assert (Hib : 0 < / beta) by (apply Rinv_0_lt_compat; exact Hbeta).
  apply (RInt_split_bound (Beta_integrand alpha beta)
           (fun u => 2 * Rpower u (alpha - 1))
           (fun u => 2 * Rpower (1 - u) (beta - 1))
           (fun u => 2 / alpha * Rpower u alpha)
           (fun u => - (2 / beta) * Rpower (1 - u) beta)
           a b (Rmin a (/ 2)) (Rmax b (/ 2)) (/ 2)); try lra.
  - intros x Hx. apply Beta_integrand_continuity. lra.
  - intros x Hx. left. apply Beta_integrand_pos.
  - intros x Hx.
    apply (continuity_pt_scal (fun u => Rpower u (alpha - 1))).
    apply Rpower_continuity. lra.
  - intros x Hx.
    apply (continuity_pt_scal (fun u => Rpower (1 - u) (beta - 1))).
    apply Rpower_mirror_continuity. lra.
  - intros x Hx. apply Beta_integrand_le_left. lra.
  - intros x Hx. apply Beta_integrand_le_right. lra.
  - intros x Hx.
    apply derivable_pt_lim_eq with (2 / alpha * (alpha * Rpower x (alpha - 1)));
      [| field; lra].
    apply (derivable_pt_lim_scal (fun u => Rpower u alpha)).
    apply derivable_pt_lim_power. lra.
  - intros x Hx.
    apply derivable_pt_lim_eq
      with (- (2 / beta) * - (beta * Rpower (1 - x) (beta - 1)));
      [| field; lra].
    apply (derivable_pt_lim_scal (fun u => Rpower (1 - u) beta)).
    apply derivable_pt_lim_power_mirror. lra.
  - assert (H3 : 0 < Rpower (Rmin a (/ 2)) alpha) by apply Rpower_pos.
    assert (H4 : Rpower (/ 2) alpha <= 1) by (apply Rpower_le_1; lra).
    assert (H5 : 0 < 2 / alpha) by (unfold Rdiv; lra).
    assert (0 < 2 / alpha * Rpower (Rmin a (/ 2)) alpha)
      by (apply Rmult_lt_0_compat; assumption).
    assert (2 / alpha * Rpower (/ 2) alpha <= 2 / alpha * 1)
      by (apply Rmult_le_compat_l; lra).
    lra.
  - assert (H3 : 0 < Rpower (1 - Rmax b (/ 2)) beta) by apply Rpower_pos.
    assert (H4 : Rpower (1 - / 2) beta <= 1) by (apply Rpower_le_1; lra).
    assert (H5 : 0 < 2 / beta) by (unfold Rdiv; lra).
    assert (0 < 2 / beta * Rpower (1 - Rmax b (/ 2)) beta)
      by (apply Rmult_lt_0_compat; assumption).
    assert (2 / beta * Rpower (1 - / 2) beta <= 2 / beta * 1)
      by (apply Rmult_le_compat_l; lra).
    lra.
Qed.

Lemma Beta_spec :
  is_integral_0_1 (Beta_integrand alpha beta) (Beta_integral alpha beta) /\
  (forall a b, 0 < a /\ a <= b /\ b < 1 ->
     RInt (Beta_integrand alpha beta) a b <= Beta_integral alpha beta).
Proof.
  destruct (integral_0_1_exists (Beta_integrand alpha beta) _
              (fun x Hx => Beta_integrand_continuity alpha beta x Hx)
              (fun x _ => Rlt_le _ _ (Beta_integrand_pos alpha beta x))
              Beta_partial_bound) as (H1 & H2 & _).
  split; assumption.
Qed.

Lemma Beta_integral_pos : 0 < Beta_integral alpha beta.
Proof.
  destruct Beta_spec as [_ H].
  apply Rlt_le_trans with (RInt (Beta_integrand alpha beta) (/ 4) (/ 2)).
  - apply RInt_pos; [lra | |].
    + intros x Hx. apply Beta_integrand_continuity. lra.
    + intros x _. apply Beta_integrand_pos.
  - apply H. lra.
Qed.

Lemma Beta_seq_cv :
  Un_cv (fun n => RInt (Beta_integrand alpha beta) (seq_01_a n) (seq_01_b n))
        (Beta_integral alpha beta).
Proof. apply integral_0_1_seq_cv, Beta_spec. Qed.

End BetaBound.

(** ** The recurrence of the Beta integral *)

Lemma seq_01_a_pos (n : nat) : 0 < seq_01_a n.
Proof. apply seq_01_bounds. Qed.

Lemma seq_01_inside (n : nat) :
  0 < seq_01_a n /\ seq_01_a n <= seq_01_b n /\ seq_01_b n < 1.
Proof.
  pose proof (seq_01_bounds n). unfold seq_01_a, seq_01_b. lra.
Qed.

Lemma seq_01_a_cv : Un_cv seq_01_a 0.
Proof. apply (Un_cv_Rinv_shift 3). lra. Qed.

Lemma seq_01_b_cv : Un_cv seq_01_b 1.
Proof.
  replace 1 with (1 - 0) at 1 by ring.
  apply (CV_minus (fun _ => 1) seq_01_a).
  - intros eps Heps. exists 0%nat. intros n _.
    unfold Rdist. rewrite Rminus_diag, Rabs_R0. exact Heps.
  - apply seq_01_a_cv.
Qed.

(** [u^s (1 - u)^t] vanishes at both ends of the unit interval. *)
Lemma boundary_cv_0_left (s t : R) :
  0 < s -> 0 <= t ->
  Un_cv (fun n => Rpower (seq_01_a n) s * Rpower (1 - seq_01_a n) t) 0.
Proof.
  intros Hs Ht.
  apply Un_cv_squeeze_0 with (fun n => Rpower (seq_01_a n) s).
  - intros n. pose proof (seq_01_bounds n) as Hb. fold (seq_01_a n) in Hb. split.
    + left. apply Rmult_lt_0_compat; apply Rpower_pos.
    + rewrite <- (Rmult_1_r (Rpower (seq_01_a n) s)) at 2.
      apply Rmult_le_compat_l; [left; apply Rpower_pos |].
      apply Rpower_le_1; lra.
  - apply Un_cv_Rpower_0; [exact Hs | apply seq_01_a_pos | apply seq_01_a_cv].
Qed.

Lemma boundary_cv_0_right (s t : R) :
  0 <= s -> 0 < t ->
  Un_cv (fun n => Rpower (seq_01_b n) s * Rpower (1 - seq_01_b n) t) 0.
Proof.
  intros Hs Ht.
  apply Un_cv_squeeze_0 with (fun n => Rpower (seq_01_a n) t).
  - intros n. pose proof (seq_01_bounds n) as Hb.
    assert (E : 1 - seq_01_b n = seq_01_a n) by (unfold seq_01_a, seq_01_b; ring).
    rewrite E. split.
    + left. apply Rmult_lt_0_compat; apply Rpower_pos.
    + rewrite <- (Rmult_1_l (Rpower (seq_01_a n) t)) at 2.
      apply Rmult_le_compat_r; [left; apply Rpower_pos |].
      apply Rpower_le_1; [unfold seq_01_b; lra | exact Hs].
  - apply Un_cv_Rpower_0; [exact Ht | apply seq_01_a_pos | apply seq_01_a_cv].
Qed.

Section BetaRecurrence.

Variables alpha beta : R.
Hypothesis Halpha : 0 < alpha.
Hypothesis Hbeta : 0 < beta.

Lemma Beta_integrand_split (u : R) :
  0 < u < 1 ->
  Beta_integrand alpha (beta + 1) u
    = Beta_integrand alpha beta u + - 1 * Beta_integrand (alpha + 1) beta u.
Proof.
  intros Hu. unfold Beta_integrand.
  replace (beta + 1 - 1) with (beta - 1 + 1) by ring.
  replace (alpha + 1 - 1) with (alpha - 1 + 1) by ring.
  rewrite !Rpower_succ by lra. ring.
Qed.

Lemma Beta_integrand_parts (u : R) :
  0 < u < 1 ->
  derivable_pt_lim (fun u => Rpower u alpha * Rpower (1 - u) beta) u
    (alpha * Beta_integrand alpha (beta + 1) u
       + - beta * Beta_integrand (alpha + 1) beta u).
Proof.
  intros Hu. unfold Beta_integrand.
  replace (beta + 1 - 1) with beta by ring.
  replace (alpha + 1 - 1) with alpha by ring.
  apply derivable_pt_lim_eq
    with (alpha * Rpower u (alpha - 1) * Rpower (1 - u) beta
            + Rpower u alpha * - (beta * Rpower (1 - u) (beta - 1)));
    [| ring].
  apply (derivable_pt_lim_mult (fun u => Rpower u alpha)
                               (fun u => Rpower (1 - u) beta)).
  - apply derivable_pt_lim_power; lra.
  - apply derivable_pt_lim_power_mirror; lra.
Qed.

Lemma Beta_cont_on (s t a b : R) :
  0 < a -> b < 1 -> cont_on (Beta_integrand s t) a b.
Proof.
  intros Ha Hb x Hx. apply Beta_integrand_continuity. lra.
Qed.

Lemma Beta_partial_split (a b : R) :
  0 < a /\ a <= b /\ b < 1 ->
  RInt (Beta_integrand alpha (beta + 1)) a b
    = RInt (Beta_integrand alpha beta) a b
      - RInt (Beta_integrand (alpha + 1) beta) a b.
Proof.
  intros (Ha & Hab & Hb).
  rewrite (RInt_ext _ (fun u => Beta_integrand alpha beta u
                                + - 1 * Beta_integrand (alpha + 1) beta u) a b).
  - rewrite RInt_linear by (exact Hab || apply Beta_cont_on; assumption). ring.
  - exact Hab.
  - apply Beta_cont_on; assumption.
  - intros x Hx. apply Beta_integrand_split. lra.
Qed.

Lemma Beta_partial_parts (a b : R) :
  0 < a /\ a <= b /\ b < 1 ->
  alpha * RInt (Beta_integrand alpha (beta + 1)) a b
    - beta * RInt (Beta_integrand (alpha + 1) beta) a b
  = Rpower b alpha * Rpower (1 - b) beta
    - Rpower a alpha * Rpower (1 - a) beta.
Proof.
  intros (Ha & Hab & Hb).
  assert (Hc : forall s t, cont_on (Beta_integrand s t) a b)
    by (intros s t; apply Beta_cont_on; assumption).
  rewrite <- (RInt_primitive
                (fun u => alpha * Beta_integrand alpha (beta + 1) u
                          + - beta * Beta_integrand (alpha + 1) beta u)
                (fun u => Rpower u alpha * Rpower (1 - u) beta) a b).
  - rewrite (RInt_linear (fun u => alpha * Beta_integrand alpha (beta + 1) u)).
    + rewrite (RInt_ext (fun u => alpha * Beta_integrand alpha (beta + 1) u)
                 (fun u => fct_cte 0 u + alpha * Beta_integrand alpha (beta + 1) u)).
      * rewrite RInt_linear, RInt_const by (exact Hab || apply Hc || apply cont_on_const).
        ring.
      * exact Hab.
      * intros x Hx. apply (continuity_pt_scal (Beta_integrand alpha (beta + 1))).
        apply Hc; exact Hx.
      * intros x _. unfold fct_cte. ring.
    + exact Hab.
    + intros x Hx. apply (continuity_pt_scal (Beta_integrand alpha (beta + 1))).
      apply Hc; exact Hx.
    + apply Hc.
  - exact Hab.
  - intros x Hx.
    apply (continuity_pt_plus (fun u => alpha * Beta_integrand alpha (beta + 1) u)
             (fun u => - beta * Beta_integrand (alpha + 1) beta u)).
    + apply (continuity_pt_scal (Beta_integrand alpha (beta + 1))). apply Hc; exact Hx.
    + apply (continuity_pt_scal (Beta_integrand (alpha + 1) beta)). apply Hc; exact Hx.
  - intros x Hx. apply Beta_integrand_parts. lra.
Qed.

Lemma Beta_integral_split :
  Beta_integral alpha (beta + 1)
    = Beta_integral alpha beta - Beta_integral (alpha + 1) beta.
Proof.
  apply (UL_sequence
           (fun n => RInt (Beta_integrand alpha (beta + 1))
                       (seq_01_a n) (seq_01_b n))).
  - apply Beta_seq_cv; lra.
  - apply Un_cv_ext
      with (fun n => RInt (Beta_integrand alpha beta) (seq_01_a n) (seq_01_b n)
                     - RInt (Beta_integrand (alpha + 1) beta)
                         (seq_01_a n) (seq_01_b n)).
    + intros n. symmetry. apply Beta_partial_split, seq_01_inside.
    + apply CV_minus; apply Beta_seq_cv; lra.
Qed.

Lemma Beta_integral_parts :
  alpha * Beta_integral alpha (beta + 1)
    = beta * Beta_integral (alpha + 1) beta.
Proof.
  apply Rminus_diag_uniq.
  apply (UL_sequence
           (fun n => alpha * RInt (Beta_integrand alpha (beta + 1))
                               (seq_01_a n) (seq_01_b n)
                     - beta * RInt (Beta_integrand (alpha + 1) beta)
                                (seq_01_a n) (seq_01_b n))).
  - apply CV_minus; apply Un_cv_scal, Beta_seq_cv; lra.
  - apply Un_cv_ext
      with (fun n => Rpower (seq_01_b n) alpha * Rpower (1 - seq_01_b n) beta
                     - Rpower (seq_01_a n) alpha * Rpower (1 - seq_01_a n) beta).
    + intros n. symmetry. apply Beta_partial_parts, seq_01_inside.
    + replace 0 with (0 - 0) by ring.
      apply CV_minus; [apply boundary_cv_0_right | apply boundary_cv_0_left]; lra.
Qed.

(** [B(alpha, beta + 1) = beta / (alpha + beta) B(alpha, beta)]. *)
Lemma Beta_integral_succ :
  (alpha + beta) * Beta_integral alpha (beta + 1) = beta * Beta_integral alpha beta.
Proof.
  pose proof Beta_integral_split as H1. pose proof Beta_integral_parts as H2.
  nra.
Qed.

End BetaRecurrence.

(** [B(alpha, 1) = 1 / alpha]. *)
Lemma Beta_integral_1 (alpha : R) : 0 < alpha -> Beta_integral alpha 1 = / alpha.
Proof.
  intros Ha.
  apply (UL_sequence
           (fun n => RInt (Beta_integrand alpha 1) (seq_01_a n) (seq_01_b n))).
  - apply Beta_seq_cv; lra.
  - apply Un_cv_ext
      with (fun n => / alpha * Rpower (seq_01_b n) alpha
                     - / alpha * Rpower (seq_01_a n) alpha).
    + intros n. symmetry. destruct (seq_01_inside n) as (H1 & H2 & H3).
      apply (RInt_primitive (Beta_integrand alpha 1)
               (fun u => / alpha * Rpower u alpha)).
      * exact H2.
      * apply Beta_cont_on; assumption.
      * intros x Hx. unfold Beta_integrand.
        replace (1 - 1) with 0 by ring. rewrite Rpower_0_r, Rmult_1_r.
        apply derivable_pt_lim_eq with (/ alpha * (alpha * Rpower x (alpha - 1)));
          [| field; lra].
        apply (derivable_pt_lim_scal (fun u => Rpower u alpha)).
        apply derivable_pt_lim_power. lra.
    + replace (/ alpha) with (/ alpha * Rpower 1 alpha - / alpha * 0) at 1
        by (rewrite Rpower_1_l; ring).
      apply CV_minus; apply Un_cv_scal.
      * apply (continuity_seq (fun u => Rpower u alpha) seq_01_b 1).
        -- apply Rpower_continuity. lra.
        -- apply seq_01_b_cv.
      * apply Un_cv_Rpower_0; [exact Ha | apply seq_01_a_pos | apply seq_01_a_cv].
Qed.

(** ** Logarithmic convexity of the two integrals *)

(** The inequality between the weighted geometric and arithmetic means. *)
Lemma weighted_means (u v th : R) :
  0 < u -> 0 < v -> 0 <= th <= 1 ->
  Rpower u th * Rpower v (1 - th) <= th * u + (1 - th) * v.
Proof.
  intros Hu Hv Hth.
  set (w := th * u + (1 - th) * v).
  assert (Hw : 0 < w).
  { unfold w. destruct (Req_dec th 0) as [-> | Hne]; [lra |].
    assert (0 < th * u) by (apply Rmult_lt_0_compat; lra).
    assert (0 <= (1 - th) * v) by (apply Rmult_le_pos; lra). lra. }
  unfold Rpower. rewrite <- exp_plus.
  rewrite <- (exp_ln w) by exact Hw.
  apply exp_le_compat.
  rewrite (ln_div u w), (ln_div v w) by assumption.
  assert (H1 : ln (u / w) <= u / w - 1)
    by (apply ln_le_minus_1, Rdiv_lt_0_compat; assumption).
  assert (H2 : ln (v / w) <= v / w - 1)
    by (apply ln_le_minus_1, Rdiv_lt_0_compat; assumption).
  assert (H3 : th * ln (u / w) <= th * (u / w - 1))
    by (apply Rmult_le_compat_l; lra).
  assert (H4 : (1 - th) * ln (v / w) <= (1 - th) * (v / w - 1))
    by (apply Rmult_le_compat_l; lra).
  assert (H5 : th * (u / w - 1) + (1 - th) * (v / w - 1) = 0).
  { replace (th * (u / w - 1) + (1 - th) * (v / w - 1))
      with ((th * u + (1 - th) * v) / w - 1) by (field; lra).
    fold w. field. lra. }
  lra.
Qed.

Lemma Rpower_exp (A th : R) : Rpower (exp A) th = exp (th * A).
Proof. unfold Rpower. rewrite ln_exp. reflexivity. Qed.

Lemma Rpower_Rinv (a z : R) : 0 < a -> Rpower (/ a) z = / Rpower a z.
Proof.
  intros Ha. unfold Rpower. rewrite ln_Rinv by exact Ha.
  rewrite <- exp_Ropp. f_equal. ring.
Qed.

Lemma Rpower_weights (a th : R) :
  0 < a -> Rpower a th * Rpower a (1 - th) = a.
Proof.
  intros Ha. rewrite <- Rpower_plus.
  replace (th + (1 - th)) with 1 by ring. apply Rpower_1; exact Ha.
Qed.

(** Hoelder's inequality on an interval, against bounds [F] and [G] of the
    two integrals. *)
Lemma holder_partial (f g h : R -> R) (a b th F G : R) :
  a <= b -> cont_on f a b -> cont_on g a b -> cont_on h a b ->
  (forall x, a < x < b -> 0 < f x) ->
  (forall x, a < x < b -> 0 < g x) ->
  (forall x, a < x < b -> h x <= Rpower (f x) th * Rpower (g x) (1 - th)) ->
  0 <= th <= 1 -> 0 < F -> 0 < G ->
  RInt f a b <= F -> RInt g a b <= G ->
  RInt h a b <= Rpower F th * Rpower G (1 - th).
Proof.
  intros Hab Hf Hg Hh Hfp Hgp Hle Hth HF HG HfF HgG.
  set (c := Rpower F th * Rpower G (1 - th)).
  assert (Hc : 0 < c) by (apply Rmult_lt_0_compat; apply Rpower_pos).
  apply Rle_trans
    with (RInt (fun x => c * th / F * f x + c * (1 - th) / G * g x) a b).
  - apply RInt_le; [exact Hab | exact Hh | apply cont_on_combination; assumption |].
    intros x Hx. specialize (Hfp x Hx). specialize (Hgp x Hx).
    apply Rle_trans with (1 := Hle x Hx).
    assert (HfF' : 0 < f x / F) by (apply Rdiv_lt_0_compat; assumption).
    assert (HgG' : 0 < g x / G) by (apply Rdiv_lt_0_compat; assumption).
    pose proof (weighted_means (f x / F) (g x / G) th HfF' HgG' Hth) as HY.
    apply Rmult_le_compat_l with (r := c) in HY; [| lra].
    replace (c * th / F * f x + c * (1 - th) / G * g x)
      with (c * (th * (f x / F) + (1 - th) * (g x / G))) by (field; lra).
    apply Rle_trans with (2 := HY). right. unfold c.
    replace (f x) with (F * (f x / F)) at 1 by (field; lra).
    replace (g x) with (G * (g x / G)) at 1 by (field; lra).
    rewrite <- !Rpower_mult_distr by assumption. ring.
  - rewrite RInt_combination by assumption.
    assert (H1 : 0 <= c * th / F).
    { unfold Rdiv. apply Rmult_le_pos; [apply Rmult_le_pos; lra |].
      left; apply Rinv_0_lt_compat; exact HF. }
    assert (H2 : 0 <= c * (1 - th) / G).
    { unfold Rdiv. apply Rmult_le_pos; [apply Rmult_le_pos; lra |].
      left; apply Rinv_0_lt_compat; exact HG. }
    apply Rle_trans with (c * th / F * F + c * (1 - th) / G * G).
    + apply Rplus_le_compat; apply Rmult_le_compat_l; assumption.
    + right. field. lra.
Qed.

Lemma Gamma_integrand_exp (z x : R) :
  Gamma_integrand z x = exp ((z - 1) * ln x - x).
Proof.
  unfold Gamma_integrand, Rpower, Rminus. rewrite exp_plus. reflexivity.
Qed.

Lemma Beta_integrand_exp (alpha beta u : R) :
  Beta_integrand alpha beta u
    = exp ((alpha - 1) * ln u + (beta - 1) * ln (1 - u)).
Proof.
  unfold Beta_integrand, Rpower. rewrite exp_plus. reflexivity.
Qed.

Lemma Un_cv_const (c : R) : Un_cv (fun _ => c) c.
Proof.
  intros eps Heps. exists 0%nat. intros n _.
  unfold Rdist. rewrite Rminus_diag, Rabs_R0. exact Heps.
Qed.

Lemma Gamma_log_convex (y1 y2 th : R) :
  0 < y1 -> 0 < y2 -> 0 <= th <= 1 ->
  Gamma (th * y1 + (1 - th) * y2)
    <= Rpower (Gamma y1) th * Rpower (Gamma y2) (1 - th).
Proof.
  intros H1 H2 Hth.
  assert (H3 : 0 < th * y1 + (1 - th) * y2).
  { destruct (Req_dec th 0) as [-> | Hne]; [lra |].
    assert (0 < th * y1) by (apply Rmult_lt_0_compat; lra).
    assert (0 <= (1 - th) * y2) by (apply Rmult_le_pos; lra). lra. }
  apply Rle_cv_lim
    with (Un := fun n => RInt (Gamma_integrand (th * y1 + (1 - th) * y2))
                           (seq_inf_a n) (seq_inf_b n))
         (Vn := fun _ => Rpower (Gamma y1) th * Rpower (Gamma y2) (1 - th));
    [| apply Gamma_seq_cv; exact H3 | apply Un_cv_const].
  intros n.
  pose proof (seq_inf_a_pos n) as Ha. pose proof (seq_inf_a_le_b n) as Hab.
  assert (Hc : forall w, cont_on (Gamma_integrand w) (seq_inf_a n) (seq_inf_b n)).
  { intros w x Hx. apply Gamma_integrand_continuity. lra. }
  apply (holder_partial (Gamma_integrand y1) (Gamma_integrand y2));
    try (apply Hc); try (apply Gamma_pos); try assumption.
  - intros x _. apply Gamma_integrand_pos.
  - intros x _. apply Gamma_integrand_pos.
  - intros x _. rewrite !Gamma_integrand_exp, !Rpower_exp, <- exp_plus.
    right. f_equal. ring.
  - apply Gamma_spec; [exact H1 | lra].
  - apply Gamma_spec; [exact H2 | lra].
Qed.

Lemma Beta_log_convex (alpha y1 y2 th : R) :
  0 < alpha -> 0 < y1 -> 0 < y2 -> 0 <= th <= 1 ->
  Beta_integral alpha (th * y1 + (1 - th) * y2)
    <= Rpower (Beta_integral alpha y1) th
       * Rpower (Beta_integral alpha y2) (1 - th).
Proof.
  intros Ha H1 H2 Hth.
  assert (H3 : 0 < th * y1 + (1 - th) * y2).
  { destruct (Req_dec th 0) as [-> | Hne]; [lra |].
    assert (0 < th * y1) by (apply Rmult_lt_0_compat; lra).
    assert (0 <= (1 - th) * y2) by (apply Rmult_le_pos; lra). lra. }
  apply Rle_cv_lim
    with (Un := fun n => RInt (Beta_integrand alpha (th * y1 + (1 - th) * y2))
                           (seq_01_a n) (seq_01_b n))
         (Vn := fun _ => Rpower (Beta_integral alpha y1) th
                         * Rpower (Beta_integral alpha y2) (1 - th));
    [| apply Beta_seq_cv; assumption | apply Un_cv_const].
  intros n. destruct (seq_01_inside n) as (Hn1 & Hn2 & Hn3).
  apply (holder_partial (Beta_integrand alpha y1) (Beta_integrand alpha y2));
    try (apply Beta_cont_on; assumption);
    try (apply Beta_integral_pos; assumption); try assumption.
  - intros x _. apply Beta_integrand_pos.
  - intros x _. apply Beta_integrand_pos.
  - intros x _. rewrite !Beta_integrand_exp, !Rpower_exp, <- exp_plus.
    right. f_equal. ring.
  - apply Beta_spec; [exact Ha | exact H1 | split; [| split]; assumption].
  - apply Beta_spec; [exact Ha | exact H2 | split; [| split]; assumption].
Qed.

(** ** Uniqueness of the Gamma function *)

Section GammaLike.

Variable f : R -> R.
Hypothesis Hf : Gamma_like f.

Lemma Gamma_like_pos (x : R) : 0 < x -> 0 < f x.
Proof. apply (proj1 Hf). Qed.

Lemma Gamma_like_rec (x : R) : 0 < x -> f (x + 1) = x * f x.
Proof. apply (proj1 (proj2 (proj2 Hf))). Qed.

Lemma Gamma_like_upper (y x : R) :
  0 < y -> 0 <= x <= 1 -> f (y + x) <= f y * Rpower y x.
Proof.
  intros Hy Hx.
  pose proof (proj2 (proj2 (proj2 Hf))) as Hlc.
  pose proof (Hlc y (y + 1) (1 - x) Hy ltac:(lra) ltac:(lra)) as H.
  replace ((1 - x) * y + (1 - (1 - x)) * (y + 1)) with (y + x) in H by ring.
  replace (1 - (1 - x)) with x in H by ring.
  rewrite Gamma_like_rec in H by exact Hy.
  rewrite <- Rpower_mult_distr in H by (try apply Gamma_like_pos; assumption).
  apply Rle_trans with (1 := H). right.
  rewrite <- (Rpower_weights (f y) (1 - x)) at 3 by (apply Gamma_like_pos; exact Hy).
  replace (1 - (1 - x)) with x by ring. ring.
Qed.

Lemma Gamma_like_lower (y x : R) :
  1 <= y -> 0 < x <= 1 -> f y * Rpower (y - 1 + x) x <= f (y + x).
Proof.
  intros Hy Hx.
  pose proof (proj2 (proj2 (proj2 Hf))) as Hlc.
  assert (Hp : 0 < y - 1 + x) by lra.
  pose proof (Hlc (y - 1 + x) (y + x) x Hp ltac:(lra) ltac:(lra)) as H.
  replace (x * (y - 1 + x) + (1 - x) * (y + x)) with y in H by ring.
  assert (Hr : f (y + x) = (y - 1 + x) * f (y - 1 + x)).
  { rewrite <- Gamma_like_rec by exact Hp. f_equal. ring. }
  assert (Hq : f (y - 1 + x) = / (y - 1 + x) * f (y + x))
    by (rewrite Hr; field; lra).
  assert (Hfx : 0 < f (y + x)) by (apply Gamma_like_pos; lra).
  rewrite Hq in H.
  rewrite <- Rpower_mult_distr in H
    by (try apply Rinv_0_lt_compat; assumption).
  rewrite Rpower_Rinv in H by exact Hp.
  rewrite Rmult_assoc, Rpower_weights in H by exact Hfx.
  assert (Hpw : 0 < Rpower (y - 1 + x) x) by apply Rpower_pos.
  apply Rmult_le_compat_r with (r := Rpower (y - 1 + x) x) in H; [| lra].
  apply Rle_trans with (1 := H). right. field. lra.
Qed.

Lemma Gamma_like_nat (n : nat) : f (INR n + 1) = INR (fact n).
Proof.
  pose proof (proj1 (proj2 Hf)) as H1.
  induction n as [| n IH].
  - simpl. rewrite Rplus_0_l. exact H1.
  - rewrite S_INR, Gamma_like_rec by (pose proof (pos_INR n); lra).
    rewrite IH. rewrite <- S_INR, <- mult_INR. reflexivity.
Qed.

End GammaLike.

Section TwoGammaLike.

Variables f g : R -> R.
Hypothesis Hf : Gamma_like f.
Hypothesis Hg : Gamma_like g.

Lemma Gamma_like_shift (n : nat) (x : R) :
  0 < x -> f (x + INR n) * g x = g (x + INR n) * f x.
Proof.
  intros Hx. induction n as [| n IH].
  - simpl. rewrite Rplus_0_r. ring.
  - assert (Hp : 0 < x + INR n) by (pose proof (pos_INR n); lra).
    replace (x + INR (S n)) with (x + INR n + 1) by (rewrite S_INR; ring).
    rewrite (proj1 (proj2 (proj2 Hf))), (proj1 (proj2 (proj2 Hg))) by exact Hp.
    rewrite !Rmult_assoc, IH. ring.
Qed.

Lemma Gamma_like_ratio (n : nat) (x : R) :
  0 < x <= 1 -> f x <= g x * (1 + / (INR n + 1)).
Proof.
  intros Hx.
  pose proof (pos_INR n) as Hn.
  set (N := INR (S n) + 1).
  assert (HN : N = INR n + 2) by (unfold N; rewrite S_INR; ring).
  assert (Hup : f (N + x) <= f N * Rpower N x)
    by (apply Gamma_like_upper; [exact Hf | lra | lra]).
  assert (Hlo : g N * Rpower (N - 1 + x) x <= g (N + x))
    by (apply Gamma_like_lower; [exact Hg | lra | lra]).
  assert (HfN : f N = g N)
    by (unfold N; rewrite (Gamma_like_nat f Hf), (Gamma_like_nat g Hg); reflexivity).
  assert (HgN : 0 < g N) by (apply (proj1 Hg); lra).
  assert (Hgx : 0 < g x) by (apply (proj1 Hg); lra).
  assert (Hfx : 0 < f x) by (apply (proj1 Hf); lra).
  assert (HgNx : 0 < g (N + x)) by (apply (proj1 Hg); lra).
  assert (HfNx : 0 < f (N + x)) by (apply (proj1 Hf); lra).
  assert (Hsh : f (N + x) * g x = g (N + x) * f x).
  { replace (N + x) with (x + INR (S (S n))).
    - apply Gamma_like_shift. lra.
    - unfold N. rewrite !S_INR. ring. }
  (* the quotient of the two powers is at most [1 + 1 / (n + 1)] *)
  set (t := N / (N - 1 + x)).
  assert (Ht : 1 <= t <= 1 + / (INR n + 1)).
  { unfold t. split.
    - apply Rmult_le_reg_r with (N - 1 + x); [lra |].
      unfold Rdiv. rewrite Rmult_assoc, Rinv_l by lra. lra.
    - apply Rmult_le_reg_r with (N - 1 + x); [lra |].
      unfold Rdiv. rewrite Rmult_assoc, Rinv_l by lra.
      rewrite HN.
      replace ((1 + / (INR n + 1)) * (INR n + 2 - 1 + x))
        with (INR n + 2 + x * (1 + / (INR n + 1)) - / (INR n + 1) * 0
              + (/ (INR n + 1) * (INR n + 1) - 1)) by ring.
      rewrite Rinv_l by lra.
      assert (0 < / (INR n + 1)) by (apply Rinv_0_lt_compat; lra).
      nra. }
  assert (Hpw : Rpower N x = Rpower t x * Rpower (N - 1 + x) x).
  { rewrite Rpower_mult_distr by (unfold t; try apply Rdiv_lt_0_compat; lra).
    f_equal. unfold t. field. lra. }
  assert (Htx : Rpower t x <= t).
  { rewrite <- (Rpower_1 t) at 2 by lra. apply Rle_Rpower; lra. }
  assert (H1 : f (N + x) <= g (N + x) * t).
  { apply Rle_trans with (1 := Hup). rewrite HfN, Hpw.
    apply Rle_trans with (Rpower t x * g (N + x)).
    - replace (g N * (Rpower t x * Rpower (N - 1 + x) x))
        with (Rpower t x * (g N * Rpower (N - 1 + x) x)) by ring.
      apply Rmult_le_compat_l; [left; apply Rpower_pos | exact Hlo].
    - rewrite Rmult_comm. apply Rmult_le_compat_l; lra. }
  (* back from [N + x] to [x] *)
  apply Rmult_le_reg_l with (g (N + x)); [exact HgNx |].
  rewrite <- Hsh.
  apply Rle_trans with (g (N + x) * t * g x).
  - apply Rmult_le_compat_r; lra.
  - replace (g (N + x) * (g x * (1 + / (INR n + 1))))
      with (g (N + x) * g x * (1 + / (INR n + 1))) by ring.
    replace (g (N + x) * t * g x) with (g (N + x) * g x * t) by ring.
    apply Rmult_le_compat_l; [| lra].
    left. apply Rmult_lt_0_compat; assumption.
Qed.

Lemma Gamma_like_le (x : R) : 0 < x <= 1 -> f x <= g x.
Proof.
  intros Hx.
  apply Rle_cv_lim
    with (Un := fun _ : nat => f x)
         (Vn := fun n => g x * (1 + / (INR n + 1))).
  - intros n. apply Gamma_like_ratio; exact Hx.
  - apply Un_cv_const.
  - replace (g x) with (g x * (1 + 0)) at 1 by ring.
    apply Un_cv_scal.
    apply (CV_plus (fun _ => 1) (fun n => / (INR n + 1))).
    + apply Un_cv_const.
    + apply Un_cv_Rinv_shift. lra.
Qed.

End TwoGammaLike.

(** Two functions with these properties agree on the positive reals. *)
Lemma Gamma_like_unique (f g : R -> R) :
  Gamma_like f -> Gamma_like g -> forall x, 0 < x -> f x = g x.
Proof.
  intros Hf Hg.
  assert (H : forall k x, 0 < x <= INR k + 1 -> f x = g x).
  { induction k as [| k IH]; intros x Hx.
    - simpl in Hx. apply Rle_antisym; apply Gamma_like_le; (assumption || lra).
    - rewrite S_INR in Hx.
      destruct (Rle_or_lt x (INR k + 1)) as [Hle | Hgt]; [apply IH; lra |].
      pose proof (pos_INR k) as Hk.
      replace x with (x - 1 + 1) by ring.
      rewrite (proj1 (proj2 (proj2 Hf))), (proj1 (proj2 (proj2 Hg))) by lra.
      rewrite (IH (x - 1)) by lra. reflexivity. }
  intros x Hx. destruct (INR_unbounded x) as [k Hk].
  apply (H k). lra.
Qed.

(** ** The Beta function in terms of the Gamma function *)

Lemma Gamma_is_Gamma_like : Gamma_like Gamma.
Proof.
  split; [exact Gamma_pos |].
  split; [exact Gamma_1 |].
  split; [exact Gamma_succ | exact Gamma_log_convex].
Qed.

Section BetaGamma.

Variable alpha : R.
Hypothesis Halpha : 0 < alpha.

Lemma scaled_Beta_is_Gamma_like : Gamma_like (scaled_Beta alpha).
Proof.
  pose proof (Gamma_pos alpha Halpha) as Hga.
  unfold scaled_Beta. split; [| split; [| split]].
  - intros x Hx. apply Rdiv_lt_0_compat; [| exact Hga].
    apply Rmult_lt_0_compat; [apply Beta_integral_pos; assumption |].
    apply Gamma_pos; lra.
  - rewrite Beta_integral_1, Gamma_succ by exact Halpha. field. lra.
  - intros x Hx.
    pose proof (Beta_integral_succ alpha x Halpha Hx) as Hrec.
    replace (alpha + (x + 1)) with (alpha + x + 1) by ring.
    rewrite Gamma_succ by lra.
    replace (Beta_integral alpha (x + 1) * ((alpha + x) * Gamma (alpha + x)))
      with ((alpha + x) * Beta_integral alpha (x + 1) * Gamma (alpha + x))
      by ring.
    rewrite Hrec. field. lra.
  - intros y1 y2 th H1 H2 Hth.
    assert (Hb1 : 0 < Beta_integral alpha y1) by (apply Beta_integral_pos; assumption).
    assert (Hb2 : 0 < Beta_integral alpha y2) by (apply Beta_integral_pos; assumption).
    assert (Hg1 : 0 < Gamma (alpha + y1)) by (apply Gamma_pos; lra).
    assert (Hg2 : 0 < Gamma (alpha + y2)) by (apply Gamma_pos; lra).
    assert (Hia : 0 < / Gamma alpha) by (apply Rinv_0_lt_compat; exact Hga).
    pose proof (Beta_log_convex alpha y1 y2 th Halpha H1 H2 Hth) as HB.
    pose proof (Gamma_log_convex (alpha + y1) (alpha + y2) th
                  ltac:(lra) ltac:(lra) Hth) as HG.
    replace (th * (alpha + y1) + (1 - th) * (alpha + y2))
      with (alpha + (th * y1 + (1 - th) * y2)) in HG by ring.
    assert (H3 : 0 < th * y1 + (1 - th) * y2).
    { destruct (Req_dec th 0) as [-> | Hne]; [lra |].
      assert (0 < th * y1) by (apply Rmult_lt_0_compat; lra).
      assert (0 <= (1 - th) * y2) by (apply Rmult_le_pos; lra). lra. }
    assert (Hb3 : 0 < Beta_integral alpha (th * y1 + (1 - th) * y2))
      by (apply Beta_integral_pos; assumption).
    assert (Hg3 : 0 < Gamma (alpha + (th * y1 + (1 - th) * y2)))
      by (apply Gamma_pos; lra).
    unfold Rdiv.
    rewrite <- !Rpower_mult_distr
      by (try apply Rmult_lt_0_compat; assumption).
    replace (Rpower (Beta_integral alpha y1) th * Rpower (Gamma (alpha + y1)) th
             * Rpower (/ Gamma alpha) th
             * (Rpower (Beta_integral alpha y2) (1 - th)
                * Rpower (Gamma (alpha + y2)) (1 - th)
                * Rpower (/ Gamma alpha) (1 - th)))
      with (Rpower (Beta_integral alpha y1) th
            * Rpower (Beta_integral alpha y2) (1 - th)
            * (Rpower (Gamma (alpha + y1)) th
               * Rpower (Gamma (alpha + y2)) (1 - th))
            * (Rpower (/ Gamma alpha) th * Rpower (/ Gamma alpha) (1 - th)))
      by ring.
    rewrite Rpower_weights by exact Hia.
    apply Rmult_le_compat_r; [lra |].
    apply Rmult_le_compat; lra.
Qed.

Lemma Beta_integral_Gamma (beta : R) :
  0 < beta -> Beta_integral alpha beta = Beta_Gamma alpha beta.
Proof.
  intros Hb.
  pose proof (Gamma_like_unique (scaled_Beta alpha) Gamma scaled_Beta_is_Gamma_like
                Gamma_is_Gamma_like beta Hb) as H.
  unfold scaled_Beta in H. unfold Beta_Gamma.
  pose proof (Gamma_pos alpha Halpha). pose proof (Gamma_pos (alpha + beta) ltac:(lra)).
  rewrite <- H. field. lra.
Qed.

End BetaGamma.

(** C7: for [0 < alpha] and [0 < beta] the integral of
    [u^(alpha - 1) (1 - u)^(beta - 1)] from [0] to [1] exists and equals
    [Gamma(alpha) Gamma(beta) / Gamma(alpha + beta)]; consequently the two
    forms of the Beta density, the numerator over that integral and the
    numerator times [Gamma(alpha + beta) / (Gamma(alpha) Gamma(beta))],
    are equal at every [x] of [[0, 1]]. *)
Theorem C7_Beta_function_by_Gamma (alpha beta : R) :
  0 < alpha -> 0 < beta ->
  is_integral_0_1 (fun u => Rpower u (alpha - 1) * Rpower (1 - u) (beta - 1))
                  (Gamma alpha * Gamma beta / Gamma (alpha + beta)) /\
  Gamma alpha * Gamma beta / Gamma (alpha + beta) = Beta_integral alpha beta /\
  (forall x, 0 <= x <= 1 ->
     PDF_Beta_integral alpha beta x = PDF_Beta alpha beta x).
Proof.
  intros Ha Hb.
  pose proof (Beta_integral_Gamma alpha Ha beta Hb) as HB.
  unfold Beta_Gamma in HB.
  split; [| split].
  - rewrite <- HB. apply (Beta_spec alpha beta Ha Hb).
  - symmetry. exact HB.
  - intros x _. unfold PDF_Beta_integral, PDF_Beta.
    destruct (Beta_kernel alpha beta x) as [v |]; [| reflexivity].
    simpl. f_equal. rewrite HB.
    pose proof (Gamma_pos alpha Ha). pose proof (Gamma_pos beta Hb).
    pose proof (Gamma_pos (alpha + beta) ltac:(lra)).
    field. lra.
Qed.

Lemma C7_Beta_function_by_Gamma_witness :
  is_integral_0_1 (fun u => Rpower u (/ 2 - 1) * Rpower (1 - u) (3 - 1))
                  (Gamma (/ 2) * Gamma 3 / Gamma (/ 2 + 3)) /\
  Gamma (/ 2) * Gamma 3 / Gamma (/ 2 + 3) = Beta_integral (/ 2) 3 /\
  (forall x, 0 <= x <= 1 ->
     PDF_Beta_integral (/ 2) 3 x = PDF_Beta (/ 2) 3 x).
Proof. apply (C7_Beta_function_by_Gamma (/ 2) 3); lra. Defined.

(** ** Instances at concrete observations *)

Lemma C1_posterior_update_exact_witness :
  posterior_update 5 3 (2, 2) = (INR 3 + 2, INR 5 - INR 3 + 2) /\
  posterior_update 5 3 (2, 2) = (INR 3 + 2, INR (5 - 3) + 2).
Proof. apply (C1_posterior_update_exact 5 3 2 2); lia. Defined.

Lemma C8_posterior_update_positive_witness :
  0 < fst (posterior_update 5 3 (2, 2)) /\
  0 < snd (posterior_update 5 3 (2, 2)) /\
  0 < INR 3 + 2 /\ 0 < INR 5 - INR 3 + 2.
Proof. apply (C8_posterior_update_positive 5 3 2 2); [lra | lra | lia]. Defined.

Lemma C9_posterior_update_additive_commutes_witness :
  posterior_update 4 1 (posterior_update 5 3 (2, 2))
    = posterior_update (5 + 4) (3 + 1) (2, 2) /\
  posterior_update 4 1 (posterior_update 5 3 (2, 2))
    = posterior_update 5 3 (posterior_update 4 1 (2, 2)).
Proof.
  apply (C9_posterior_update_additive_commutes 5 3 4 1 (2, 2)); lia.
Defined.

Lemma C10_uniform_prior_MAP_is_MLE_witness :
  posterior_update 5 3 (1, 1) = Beta_of_counts 3 (5 - 3) /\
  posterior_update 5 3 (1, 1) = (INR 3 + 1, INR 5 - INR 3 + 1) /\
  MAP (INR 3 + 1) (INR 5 - INR 3 + 1)
    = (INR 3 + 1 - 1) / ((INR 3 + 1) + (INR 5 - INR 3 + 1) - 2) /\
  MAP (INR 3 + 1) (INR 5 - INR 3 + 1) = INR 3 / INR 5 /\
  MAP (fst (posterior_update 5 3 (1, 1))) (snd (posterior_update 5 3 (1, 1)))
    = MLE 5 3.
Proof. apply (C10_uniform_prior_MAP_is_MLE 5 3); lia. Defined.

(** * Further properties of the formulas *)

(** ** The Binomial mass function *)

Lemma binomial_pmf_nonneg (n k : nat) (p : R) :
  0 <= p <= 1 -> 0 <= binomial_pmf n p k.
Proof.
  intros Hp. unfold binomial_pmf.
  apply Rmult_le_pos; [apply Rmult_le_pos |].
  - left. apply binom_pos.
  - apply pow_le. lra.
  - apply pow_le. lra.
Qed.

Lemma sum_f_R0_term_le (f : nat -> R) (n k : nat) :
  (forall i, 0 <= f i) -> (k <= n)%nat -> f k <= sum_f_R0 f n.
Proof.
  intros Hf. induction n as [| n IH]; intros Hk.
  - replace k with 0%nat by lia. simpl. lra.
  - simpl. destruct (Nat.eq_dec k (S n)) as [-> | Hne].
    + assert (0 <= sum_f_R0 f n) by (apply cond_pos_sum; exact Hf). lra.
    + specialize (IH ltac:(lia)). specialize (Hf (S n)). lra.
Qed.

Lemma binomial_pmf_sum (n : nat) (p : R) :
  sum_f_R0 (binomial_pmf n p) n = 1.
Proof.
  transitivity ((p + (1 - p)) ^ n).
  - rewrite binomial. apply sum_eq. intros i _. reflexivity.
  - replace (p + (1 - p)) with 1 by ring. apply pow1.
Qed.

(** X1: the Binomial mass function is a probability distribution on
    [0, ..., n]: for [p] in [[0, 1]] its values lie in [[0, 1]], and
    they add up to [1]. *)
Theorem X1_binomial_pmf_is_a_distribution (n : nat) (p : R) :
  0 <= p <= 1 ->
  sum_f_R0 (binomial_pmf n p) n = 1 /\
  forall k, (k <= n)%nat -> 0 <= binomial_pmf n p k <= 1.
Proof.
  intros Hp. split; [apply binomial_pmf_sum |].
  intros k Hk. split; [apply binomial_pmf_nonneg; exact Hp |].
  rewrite <- (binomial_pmf_sum n p).
  apply sum_f_R0_term_le; [| exact Hk].
  intros i. apply binomial_pmf_nonneg; exact Hp.
Qed.

Lemma X1_binomial_pmf_is_a_distribution_witness :
  sum_f_R0 (binomial_pmf 25 (3 / 10)) 25 = 1 /\
  forall k, (k <= 25)%nat -> 0 <= binomial_pmf 25 (3 / 10) k <= 1.
Proof. apply (X1_binomial_pmf_is_a_distribution 25 (3 / 10)). lra. Defined.

(** ** The log likelihood *)

(** X2: inside the unit interval the log likelihood is the logarithm of
    the likelihood. *)
Theorem X2_LL_is_the_logarithm_of_L (n k : nat) (p : R) :
  (0 <= k <= n)%nat -> 0 < p < 1 -> LL n k p = ln (L n k p).
Proof.
  intros [_ Hkn] Hp. unfold LL, L.
  assert (Hb : 0 < binom n k) by apply binom_pos.
  assert (H1 : 0 < p ^ k) by (apply pow_lt; lra).
  assert (H2 : 0 < (1 - p) ^ (n - k)) by (apply pow_lt; lra).
  rewrite ln_mult by (try apply Rmult_lt_0_compat; assumption).
  rewrite ln_mult by assumption.
  rewrite !ln_pow by lra.
  rewrite minus_INR by exact Hkn. reflexivity.
Qed.

Lemma X2_LL_is_the_logarithm_of_L_witness :
  LL 25 7 (3 / 10) = ln (L 25 7 (3 / 10)).
Proof. apply (X2_LL_is_the_logarithm_of_L 25 7 (3 / 10)); [lia | lra]. Defined.

(** X3: inside the unit interval the log likelihood is differentiable,
    with the derivative [k / p - (n - k) / (1 - p)] of the derivation. *)
Theorem X3_derivative_of_LL (n k : nat) (p : R) :
  0 < p < 1 -> derivable_pt_lim (LL n k) p (INR k / p - (INR n - INR k) / (1 - p)).
Proof.
  intros Hp. apply (LL_derivative n k p Hp).
Qed.

Lemma X3_derivative_of_LL_witness :
  derivable_pt_lim (LL 25 7) (3 / 10)
    (INR 7 / (3 / 10) - (INR 25 - INR 7) / (1 - 3 / 10)).
Proof. apply (X3_derivative_of_LL 25 7 (3 / 10)). lra. Defined.

Lemma dLL_quotient (n k : nat) (p : R) :
  0 < p < 1 -> dLL n k p = (INR k - INR n * p) / (p * (1 - p)).
Proof. intros Hp. unfold dLL. field. lra. Qed.

(** X4: setting the derivative of the log likelihood to zero has exactly
    one solution inside the unit interval, [p = k / n]; the derivative is
    positive before it and negative after it, so the solution is a
    maximum. *)
Theorem X4_stationary_point_of_LL (n k : nat) (p : R) :
  (0 < n)%nat -> 0 < p < 1 ->
  (dLL n k p = 0 <-> p = MLE n k) /\
  (0 < dLL n k p <-> p < MLE n k) /\
  (dLL n k p < 0 <-> MLE n k < p).
Proof.
  intros Hn Hp.
  assert (H0 : 0 < INR n) by (apply lt_0_INR; exact Hn).
  assert (Hpp : 0 < p * (1 - p)) by (apply Rmult_lt_0_compat; lra).
  assert (Hi : 0 < / (p * (1 - p))) by (apply Rinv_0_lt_compat; exact Hpp).
  assert (HM : MLE n k * INR n = INR k) by (unfold MLE; field; lra).
  split; [apply dLL_zero_iff; assumption |].
  rewrite dLL_quotient by exact Hp. unfold Rdiv.
  split; split; intros H.
  - assert (0 < INR k - INR n * p).
    { destruct (Rlt_or_le 0 (INR k - INR n * p)) as [Hlt | Hle]; [exact Hlt |].
      assert ((INR k - INR n * p) * / (p * (1 - p)) <= 0) by nra. lra. }
    nra.
  - apply Rmult_lt_0_compat; [nra | exact Hi].
  - assert (INR k - INR n * p < 0).
    { destruct (Rlt_or_le (INR k - INR n * p) 0) as [Hlt | Hle]; [exact Hlt |].
      assert (0 <= (INR k - INR n * p) * / (p * (1 - p)))
        by (apply Rmult_le_pos; lra). lra. }
    nra.
  - assert (INR k - INR n * p < 0) by nra. nra.
Qed.

Lemma X4_stationary_point_of_LL_witness :
  (dLL 25 7 (3 / 10) = 0 <-> 3 / 10 = MLE 25 7) /\
  (0 < dLL 25 7 (3 / 10) <-> 3 / 10 < MLE 25 7) /\
  (dLL 25 7 (3 / 10) < 0 <-> MLE 25 7 < 3 / 10).
Proof. apply (X4_stationary_point_of_LL 25 7 (3 / 10)); [lia | lra]. Defined.

(** ** The maximum of the likelihood is unique *)

Lemma pow_lt_1_strict (x : R) (n : nat) :
  0 <= x < 1 -> (0 < n)%nat -> x ^ n < 1.
Proof.
  intros Hx Hn. destruct n as [| n]; [lia |].
  simpl. assert (H : x ^ n <= 1).
  { apply Rle_trans with (1 ^ n); [apply pow_incr; lra | rewrite pow1; lra]. }
  assert (0 <= x ^ n) by (apply pow_le; lra).
  nra.
Qed.

Lemma kernel_lt_at_MLE (n k : nat) (p : R) :
  (0 < n)%nat -> (0 <= k <= n)%nat -> 0 <= p <= 1 -> p <> MLE n k ->
  p ^ k * (1 - p) ^ (n - k) < MLE n k ^ k * (1 - MLE n k) ^ (n - k).
Proof.
  intros Hn Hkn Hp Hne.
  assert (H0 : 0 < INR n) by (apply lt_0_INR; exact Hn).
  assert (Hnk : INR (n - k) = INR n - INR k) by (apply minus_INR; lia).
  destruct (Nat.eq_dec k 0) as [Hk0 | Hk0].
  { assert (E : MLE n k = 0) by (unfold MLE; rewrite Hk0; simpl; unfold Rdiv; ring).
    rewrite E in *. rewrite Hk0, Rminus_0_r, pow1. simpl.
    assert ((1 - p) ^ (n - 0) < 1) by (apply pow_lt_1_strict; [lra | lia]).
    lra. }
  destruct (Nat.eq_dec k n) as [Hkn' | Hkn'].
  { assert (E : MLE n k = 1) by (unfold MLE; rewrite Hkn'; field; lra).
    rewrite E in *. rewrite Hkn', Nat.sub_diag, pow1. simpl.
    assert (p ^ n < 1) by (apply pow_lt_1_strict; [lra | lia]).
    lra. }
  assert (Hk1 : 0 < INR k) by (apply lt_0_INR; lia).
  assert (Hk2 : INR k < INR n) by (apply lt_INR; lia).
  assert (Hq' : 0 < MLE n k < 1).
  { unfold MLE; split.
    - apply Rdiv_lt_0_compat; lra.
    - apply Rmult_lt_reg_r with (INR n); [exact H0 |].
      unfold Rdiv. rewrite Rmult_assoc, Rinv_l by lra. lra. }
  assert (Hpos : 0 < MLE n k ^ k * (1 - MLE n k) ^ (n - k)).
  { apply Rmult_lt_0_compat; apply pow_lt; lra. }
  destruct (Req_dec p 0) as [Ep0 | Ep0].
  { rewrite Ep0, pow_i by lia. lra. }
  destruct (Req_dec p 1) as [Ep1 | Ep1].
  { rewrite Ep1. replace (1 - 1) with 0 by ring. rewrite (pow_i (n - k)) by lia. lra. }
  rewrite !pow_exp_ln by lra. rewrite <- !exp_plus.
  apply exp_increasing. rewrite Hnk.
  apply weighted_ln_lt; try lra.
  unfold MLE. field. lra.
Qed.

(** X5: the fraction of successes is the only maximum of the likelihood
    on the unit interval: at every other [p] of [[0, 1]] the likelihood
    is strictly smaller. *)
Theorem X5_MLE_is_the_unique_maximum (n k : nat) (p : R) :
  (0 < n)%nat -> (0 <= k <= n)%nat -> 0 <= p <= 1 -> p <> MLE n k ->
  L n k p < L n k (MLE n k).
Proof.
  intros Hn Hkn Hp Hne. unfold L. rewrite !Rmult_assoc.
  apply Rmult_lt_compat_l; [apply binom_pos |].
  apply kernel_lt_at_MLE; assumption.
Qed.

Lemma X5_MLE_is_the_unique_maximum_witness :
  L 5 5 (3 / 10) < L 5 5 (MLE 5 5).
Proof.
  apply (X5_MLE_is_the_unique_maximum 5 5 (3 / 10)); [lia | lia | lra |].
  unfold MLE. simpl. lra.
Defined.

(** ** Improper integrals over the unit interval, scaled *)

Lemma is_integral_0_1_ext (f g : R -> R) (I : R) :
  (forall x, 0 < x < 1 -> continuity_pt f x) ->
  (forall x, 0 < x < 1 -> f x = g x) ->
  is_integral_0_1 f I -> is_integral_0_1 g I.
Proof.
  intros Hc Hfg HI eps Heps.
  destruct (HI eps Heps) as (d & Hd & H).
  exists d. split; [exact Hd |].
  intros a b Ha Hb Hab.
  rewrite <- (RInt_ext f g a b).
  - apply H; assumption.
  - exact Hab.
  - intros x Hx. apply Hc. lra.
  - intros x Hx. apply Hfg. lra.
Qed.

Lemma is_integral_0_1_scal (f : R -> R) (c I : R) :
  (forall x, 0 < x < 1 -> continuity_pt f x) ->
  is_integral_0_1 f I -> is_integral_0_1 (fun x => c * f x) (c * I).
Proof.
  intros Hc HI eps Heps.
  assert (Hc1 : 0 < Rabs c + 1) by (pose proof (Rabs_pos c); lra).
  destruct (HI (eps / (Rabs c + 1)) (Rdiv_lt_0_compat _ _ Heps Hc1))
    as (d & Hd & H).
  exists d. split; [exact Hd |].
  intros a b Ha Hb Hab. specialize (H a b Ha Hb Hab).
  rewrite RInt_scal by (try exact Hab; intros x Hx; apply Hc; lra).
  rewrite <- Rmult_minus_distr_l, Rabs_mult.
  apply Rle_lt_trans with (Rabs c * (eps / (Rabs c + 1))).
  - apply Rmult_le_compat_l; [apply Rabs_pos | lra].
  - apply Rlt_le_trans with ((Rabs c + 1) * (eps / (Rabs c + 1))).
    + apply Rmult_lt_compat_r; [apply Rdiv_lt_0_compat; assumption | lra].
    + right. field. lra.
Qed.

Lemma rpow_nat (x : R) (j : nat) : 0 <= x -> rpow x (INR j) = Some (x ^ j).
Proof.
  intros Hx.
  assert (H0 : rpow x 0 = Some 1).
  { destruct Hx as [Hx | <-]; [| apply rpow_0_0].
    rewrite rpow_pos by exact Hx. f_equal. apply Rpower_0_r. }
  pose proof (rpow_pow_mult x 0 1 j Hx H0) as H.
  rewrite Rplus_0_r, Rmult_1_r in H. exact H.
Qed.

(** ** The Gamma function on the positive reals *)

(** X6: for every [z > 0] the integral that defines [Gamma(z)] exists:
    the integrals of [x^(z - 1) e^(-x)] over [[a, b]] tend to [Gamma(z)]
    as [a] decreases to [0] and [b] grows, none of them exceeds it, and
    [Gamma(z)] is positive. *)
Theorem X6_Gamma_integral_converges (z : R) :
  0 < z ->
  is_integral_0_inf (fun x => Rpower x (z - 1) * exp (- x)) (Gamma z) /\
  (forall a b, 0 < a <= b ->
     RInt (fun x => Rpower x (z - 1) * exp (- x)) a b <= Gamma z) /\
  0 < Gamma z.
Proof.
  intros Hz. destruct (Gamma_spec z Hz) as [H1 H2].
  split; [exact H1 | split; [exact H2 | apply Gamma_pos; exact Hz]].
Qed.

Lemma X6_Gamma_integral_converges_witness :
  is_integral_0_inf (fun x => Rpower x (/ 2 - 1) * exp (- x)) (Gamma (/ 2)) /\
  (forall a b, 0 < a <= b ->
     RInt (fun x => Rpower x (/ 2 - 1) * exp (- x)) a b <= Gamma (/ 2)) /\
  0 < Gamma (/ 2).
Proof. apply (X6_Gamma_integral_converges (/ 2)). lra. Defined.

Lemma Gamma_shift (z : R) (n : nat) :
  0 < z ->
  Gamma (z + INR n) = fold_right Rmult (Gamma z) (map (fun i => z + INR i) (rev (seq 0 n))).
Proof.
  intros Hz. induction n as [| n IH].
  - simpl. rewrite Rplus_0_r. reflexivity.
  - rewrite seq_S, rev_app_distr. simpl rev. simpl app. simpl map. simpl fold_right.
    rewrite <- IH.
    replace (z + INR (S n)) with (z + INR n + 1) by (rewrite S_INR; ring).
    apply Gamma_succ. pose proof (pos_INR n). lra.
Qed.

(** X7: the Gamma function generalizes the factorial: [Gamma(1) = 1],
    [Gamma(z + 1) = z Gamma(z)] for every real [z > 0], and so
    [Gamma(z + n) = (z + n - 1) ... (z + 1) z Gamma(z)]. *)
Theorem X7_Gamma_recurrence (z : R) (n : nat) :
  0 < z ->
  Gamma 1 = 1 /\
  Gamma (z + 1) = z * Gamma z /\
  Gamma (z + INR n)
    = fold_right Rmult (Gamma z) (map (fun i => z + INR i) (rev (seq 0 n))).
Proof.
  intros Hz.
  split; [exact Gamma_1 | split; [apply Gamma_succ; exact Hz |]].
  apply Gamma_shift; exact Hz.
Qed.

Lemma X7_Gamma_recurrence_witness :
  Gamma 1 = 1 /\
  Gamma (/ 2 + 1) = / 2 * Gamma (/ 2) /\
  Gamma (/ 2 + INR 3)
    = fold_right Rmult (Gamma (/ 2)) (map (fun i => / 2 + INR i) (rev (seq 0 3))).
Proof. apply (X7_Gamma_recurrence (/ 2) 3). lra. Defined.

(** X8: the logarithm of the Gamma function is convex on the positive
    reals: [Gamma(t x + (1 - t) y) <= Gamma(x)^t Gamma(y)^(1 - t)] for
    [0 <= t <= 1]. *)
Theorem X8_Gamma_is_log_convex (x y t : R) :
  0 < x -> 0 < y -> 0 <= t <= 1 ->
  Gamma (t * x + (1 - t) * y) <= Rpower (Gamma x) t * Rpower (Gamma y) (1 - t) /\
  ln (Gamma (t * x + (1 - t) * y)) <= t * ln (Gamma x) + (1 - t) * ln (Gamma y).
Proof.
  intros Hx Hy Ht.
  pose proof (Gamma_log_convex x y t Hx Hy Ht) as H.
  split; [exact H |].
  assert (Hp : 0 < t * x + (1 - t) * y).
  { destruct (Req_dec t 0) as [-> | Hne]; [lra |].
    assert (0 < t * x) by (apply Rmult_lt_0_compat; lra).
    assert (0 <= (1 - t) * y) by (apply Rmult_le_pos; lra). lra. }
  pose proof (Gamma_pos _ Hp) as Hg.
  unfold Rpower in H. rewrite <- exp_plus in H.
  destruct H as [H | H].
  - left. apply exp_lt_inv. rewrite exp_ln by exact Hg. exact H.
  - right. apply exp_inv. rewrite exp_ln by exact Hg. exact H.
Qed.

Lemma X8_Gamma_is_log_convex_witness :
  Gamma (/ 2 * 1 + (1 - / 2) * 2)
    <= Rpower (Gamma 1) (/ 2) * Rpower (Gamma 2) (1 - / 2) /\
  ln (Gamma (/ 2 * 1 + (1 - / 2) * 2))
    <= / 2 * ln (Gamma 1) + (1 - / 2) * ln (Gamma 2).
Proof. apply (X8_Gamma_is_log_convex 1 2 (/ 2)); lra. Defined.

(** ** The Beta function *)

Lemma Beta_integral_sym (alpha beta : R) :
  0 < alpha -> 0 < beta -> Beta_integral alpha beta = Beta_integral beta alpha.
Proof.
  intros Ha Hb.
  rewrite (Beta_integral_Gamma alpha Ha beta Hb).
  rewrite (Beta_integral_Gamma beta Hb alpha Ha).
  unfold Beta_Gamma. rewrite (Rplus_comm beta alpha). unfold Rdiv. ring.
Qed.

(** X9: the Beta integral converges to a positive number and is
    symmetric in its two parameters. *)
Theorem X9_Beta_integral_converges_and_is_symmetric (alpha beta : R) :
  0 < alpha -> 0 < beta ->
  is_integral_0_1 (fun u => Rpower u (alpha - 1) * Rpower (1 - u) (beta - 1))
                  (Beta_integral alpha beta) /\
  0 < Beta_integral alpha beta /\
  Beta_integral alpha beta = Beta_integral beta alpha.
Proof.
  intros Ha Hb. split; [apply (Beta_spec alpha beta Ha Hb) |].
  split; [apply Beta_integral_pos; assumption |].
  apply Beta_integral_sym; assumption.
Qed.

Lemma X9_Beta_integral_converges_and_is_symmetric_witness :
  is_integral_0_1 (fun u => Rpower u (/ 2 - 1) * Rpower (1 - u) (3 - 1))
                  (Beta_integral (/ 2) 3) /\
  0 < Beta_integral (/ 2) 3 /\
  Beta_integral (/ 2) 3 = Beta_integral 3 (/ 2).
Proof.
  apply (X9_Beta_integral_converges_and_is_symmetric (/ 2) 3); lra.
Defined.

(** X10: the recurrences of the Beta integral: one more failure
    multiplies it by [beta / (alpha + beta)], one more success by
    [alpha / (alpha + beta)], and [B(alpha, 1) = 1 / alpha]. *)
Theorem X10_Beta_integral_recurrence (alpha beta : R) :
  0 < alpha -> 0 < beta ->
  Beta_integral alpha (beta + 1) = beta / (alpha + beta) * Beta_integral alpha beta /\
  Beta_integral (alpha + 1) beta = alpha / (alpha + beta) * Beta_integral alpha beta /\
  Beta_integral alpha 1 = / alpha.
Proof.
  intros Ha Hb.
  pose proof (Beta_integral_succ alpha beta Ha Hb) as H1.
  pose proof (Beta_integral_succ beta alpha Hb Ha) as H2.
  rewrite (Beta_integral_sym beta (alpha + 1)) in H2 by lra.
  rewrite (Beta_integral_sym beta alpha) in H2 by lra.
  split; [| split; [| apply Beta_integral_1; exact Ha]].
  - apply Rmult_eq_reg_l with (alpha + beta); [| lra].
    rewrite H1. field. lra.
  - apply Rmult_eq_reg_l with (beta + alpha); [| lra].
    rewrite H2. field. lra.
Qed.

Lemma X10_Beta_integral_recurrence_witness :
  Beta_integral (/ 2) (3 + 1) = 3 / (/ 2 + 3) * Beta_integral (/ 2) 3 /\
  Beta_integral (/ 2 + 1) 3 = / 2 / (/ 2 + 3) * Beta_integral (/ 2) 3 /\
  Beta_integral (/ 2) 1 = / / 2.
Proof. apply (X10_Beta_integral_recurrence (/ 2) 3); lra. Defined.

(** ** The Beta density *)

Lemma PDF_Beta_interior (alpha beta x : R) :
  0 < x < 1 ->
  PDF_Beta alpha beta x
    = Some (Gamma (alpha + beta) / (Gamma alpha * Gamma beta)
            * Beta_integrand alpha beta x).
Proof.
  intros Hx. unfold PDF_Beta. rewrite Beta_kernel_interior by exact Hx.
  reflexivity.
Qed.

Lemma PDF_Beta_integral_interior (alpha beta x : R) :
  0 < x < 1 ->
  PDF_Beta_integral alpha beta x
    = Some (Beta_integrand alpha beta x / Beta_integral alpha beta).
Proof.
  intros Hx. unfold PDF_Beta_integral. rewrite Beta_kernel_interior by exact Hx.
  reflexivity.
Qed.

Lemma Beta_norm_times_integral (alpha beta : R) :
  0 < alpha -> 0 < beta ->
  Gamma (alpha + beta) / (Gamma alpha * Gamma beta) * Beta_integral alpha beta = 1.
Proof.
  intros Ha Hb. rewrite (Beta_integral_Gamma alpha Ha beta Hb). unfold Beta_Gamma.
  pose proof (Gamma_pos alpha Ha). pose proof (Gamma_pos beta Hb).
  pose proof (Gamma_pos (alpha + beta) ltac:(lra)).
  field. lra.
Qed.

Lemma PDF_Beta_integrates_to_1 (alpha beta : R) :
  0 < alpha -> 0 < beta ->
  is_integral_0_1 (fun x => density_value (PDF_Beta alpha beta x)) 1.
Proof.
  intros Ha Hb.
  rewrite <- (Beta_norm_times_integral alpha beta Ha Hb).
  apply (is_integral_0_1_ext
           (fun x => Gamma (alpha + beta) / (Gamma alpha * Gamma beta)
                     * Beta_integrand alpha beta x)).
  - intros x Hx. apply (continuity_pt_scal (Beta_integrand alpha beta)).
    apply Beta_integrand_continuity; exact Hx.
  - intros x Hx. rewrite PDF_Beta_interior by exact Hx. reflexivity.
  - apply is_integral_0_1_scal.
    + intros x Hx. apply Beta_integrand_continuity; exact Hx.
    + apply (Beta_spec alpha beta Ha Hb).
Qed.

(** X11: the Beta density is a probability density: in both of its
    forms it integrates to [1] over the unit interval, and inside the
    interval it is positive. *)
Theorem X11_Beta_density_is_normalized (alpha beta : R) :
  0 < alpha -> 0 < beta ->
  is_integral_0_1 (fun x => density_value (PDF_Beta alpha beta x)) 1 /\
  is_integral_0_1 (fun x => density_value (PDF_Beta_integral alpha beta x)) 1 /\
  forall x, 0 < x < 1 -> exists v, PDF_Beta alpha beta x = Some v /\ 0 < v.
Proof.
  intros Ha Hb. split; [apply PDF_Beta_integrates_to_1; assumption |]. split.
  - pose proof (Beta_integral_pos alpha beta Ha Hb) as HB.
    replace 1 with (/ Beta_integral alpha beta * Beta_integral alpha beta)
      by (field; lra).
    apply (is_integral_0_1_ext
             (fun x => / Beta_integral alpha beta * Beta_integrand alpha beta x)).
    + intros x Hx. apply (continuity_pt_scal (Beta_integrand alpha beta)).
      apply Beta_integrand_continuity; exact Hx.
    + intros x Hx. rewrite PDF_Beta_integral_interior by exact Hx.
      simpl. unfold Rdiv. ring.
    + apply is_integral_0_1_scal.
      * intros x Hx. apply Beta_integrand_continuity; exact Hx.
      * apply (Beta_spec alpha beta Ha Hb).
  - intros x Hx. rewrite PDF_Beta_interior by exact Hx.
    eexists. split; [reflexivity |].
    apply Rmult_lt_0_compat; [apply Beta_norm_pos; assumption |].
    apply Beta_integrand_pos.
Qed.

Lemma X11_Beta_density_is_normalized_witness :
  is_integral_0_1 (fun x => density_value (PDF_Beta (/ 2) 3 x)) 1 /\
  is_integral_0_1 (fun x => density_value (PDF_Beta_integral (/ 2) 3 x)) 1 /\
  forall x, 0 < x < 1 -> exists v, PDF_Beta (/ 2) 3 x = Some v /\ 0 < v.
Proof. apply (X11_Beta_density_is_normalized (/ 2) 3); lra. Defined.

Lemma omul_comm (a b : option R) : omul a b = omul b a.
Proof.
  destruct a as [u |], b as [v |]; simpl; try reflexivity.
  f_equal. ring.
Qed.

(** X12: exchanging successes and failures mirrors the Beta density:
    the density of [Beta(alpha, beta)] at [x] is the density of
    [Beta(beta, alpha)] at [1 - x], also where it has no value. *)
Theorem X12_Beta_density_mirror (alpha beta x : R) :
  PDF_Beta alpha beta x = PDF_Beta beta alpha (1 - x).
Proof.
  unfold PDF_Beta, Beta_kernel.
  replace (1 - (1 - x)) with x by ring.
  rewrite (omul_comm (rpow (1 - x) (beta - 1))).
  rewrite (Rplus_comm beta alpha), (Rmult_comm (Gamma beta)).
  reflexivity.
Qed.

(** ** The Beta distribution of the counts *)

Section Counts.

Variables n k : nat.
Hypothesis Hkn : (0 <= k <= n)%nat.

Lemma Gamma_of_count (m : nat) : Gamma (INR m + 1) = INR (fact m).
Proof. rewrite <- S_INR. apply Gamma_INR_S. Qed.

Lemma Beta_integral_counts :
  Beta_integral (INR k + 1) (INR (n - k) + 1)
    = INR (fact k) * INR (fact (n - k)) / INR (fact (S n)).
Proof.
  pose proof (pos_INR k). pose proof (pos_INR (n - k)).
  rewrite Beta_integral_Gamma by lra. unfold Beta_Gamma.
  rewrite !Gamma_of_count.
  replace (INR k + 1 + (INR (n - k) + 1)) with (INR (S n) + 1).
  - rewrite Gamma_of_count. reflexivity.
  - rewrite S_INR, minus_INR by lia. ring.
Qed.

Lemma binom_times_Beta_integral :
  binom n k * Beta_integral (INR k + 1) (INR (n - k) + 1) = / (INR n + 1).
Proof.
  rewrite Beta_integral_counts. unfold binom.
  change (fact (S n)) with (S n * fact n)%nat.
  rewrite mult_INR, S_INR.
  pose proof (INR_fact_lt_0 n). pose proof (INR_fact_lt_0 k).
  pose proof (INR_fact_lt_0 (n - k)). pose proof (pos_INR n).
  field. lra.
Qed.

Lemma L_interior (p : R) :
  0 < p < 1 ->
  L n k p = binom n k * Beta_integrand (INR k + 1) (INR (n - k) + 1) p.
Proof.
  intros Hp. unfold L, Beta_integrand.
  replace (INR k + 1 - 1) with (INR k) by ring.
  replace (INR (n - k) + 1 - 1) with (INR (n - k)) by ring.
  rewrite !Rpower_pow by lra. ring.
Qed.

Lemma L_integral : is_integral_0_1 (L n k) (/ (INR n + 1)).
Proof.
  pose proof (pos_INR k). pose proof (pos_INR (n - k)).
  rewrite <- binom_times_Beta_integral.
  apply (is_integral_0_1_ext
           (fun p => binom n k * Beta_integrand (INR k + 1) (INR (n - k) + 1) p)).
  - intros x Hx. apply (continuity_pt_scal (Beta_integrand _ _)).
    apply Beta_integrand_continuity; exact Hx.
  - intros x Hx. symmetry. apply L_interior; exact Hx.
  - apply is_integral_0_1_scal.
    + intros x Hx. apply Beta_integrand_continuity; exact Hx.
    + apply Beta_spec; lra.
Qed.

Lemma Beta_kernel_counts (p : R) :
  0 <= p <= 1 ->
  Beta_kernel (INR k + 1) (INR (n - k) + 1) p = Some (p ^ k * (1 - p) ^ (n - k)).
Proof.
  intros Hp. unfold Beta_kernel.
  replace (INR k + 1 - 1) with (INR k) by ring.
  replace (INR (n - k) + 1 - 1) with (INR (n - k)) by ring.
  rewrite !rpow_nat by lra. reflexivity.
Qed.

Lemma PDF_Beta_counts (p : R) :
  0 <= p <= 1 ->
  PDF_Beta (INR k + 1) (INR (n - k) + 1) p = Some ((INR n + 1) * L n k p).
Proof.
  intros Hp. unfold PDF_Beta. rewrite Beta_kernel_counts by exact Hp.
  simpl. f_equal.
  pose proof (pos_INR k). pose proof (pos_INR (n - k)). pose proof (pos_INR n).
  pose proof (Beta_norm_times_integral (INR k + 1) (INR (n - k) + 1)
                ltac:(lra) ltac:(lra)) as HN1.
  pose proof binom_times_Beta_integral as HN2.
  pose proof (Beta_integral_pos (INR k + 1) (INR (n - k) + 1)
                ltac:(lra) ltac:(lra)) as HB.
  set (Cn := Gamma (INR k + 1 + (INR (n - k) + 1))
             / (Gamma (INR k + 1) * Gamma (INR (n - k) + 1))) in *.
  set (B := Beta_integral (INR k + 1) (INR (n - k) + 1)) in *.
  assert (E : Cn = (INR n + 1) * binom n k).
  { apply Rmult_eq_reg_r with B; [| lra].
    rewrite HN1, Rmult_assoc, HN2. field. lra. }
  rewrite E. unfold L. ring.
Qed.

End Counts.

(** X13: the integral of the Binomial likelihood over the success
    probability is [1 / (n + 1)], whatever the number of successes. *)
Theorem X13_likelihood_integral (n k : nat) :
  (0 <= k <= n)%nat -> is_integral_0_1 (L n k) (/ (INR n + 1)).
Proof. intros Hkn. apply L_integral; exact Hkn. Qed.

Lemma X13_likelihood_integral_witness :
  is_integral_0_1 (L 5 5) (/ (INR 5 + 1)).
Proof. apply (X13_likelihood_integral 5 5). lia. Defined.

(** X14: the Beta distribution of the counts, with [alpha] the number of
    successes plus one and [beta] the number of failures plus one, has as
    its density the Binomial likelihood times [n + 1], on all of
    [[0, 1]]. *)
Theorem X14_density_of_the_counts (n k : nat) (p : R) :
  (0 <= k <= n)%nat -> 0 <= p <= 1 ->
  PDF_Beta (fst (Beta_of_counts k (n - k))) (snd (Beta_of_counts k (n - k))) p
    = Some ((INR n + 1) * L n k p).
Proof.
  intros Hkn Hp. unfold Beta_of_counts. simpl fst. simpl snd.
  apply PDF_Beta_counts; assumption.
Qed.

Lemma X14_density_of_the_counts_witness :
  PDF_Beta (fst (Beta_of_counts 5 (5 - 5))) (snd (Beta_of_counts 5 (5 - 5))) 1
    = Some ((INR 5 + 1) * L 5 5 1).
Proof. apply (X14_density_of_the_counts 5 5 1); [lia | lra]. Defined.

(** ** The posterior *)

(** X15: inside the unit interval the unnormalized posterior is exactly
    the constant [c] of the derivation times
    [p^(k + alpha - 1) (1 - p)^(n - k + beta - 1)]. *)
Theorem X15_unnormalized_posterior_kernel (n k : nat) (alpha beta p : R) :
  (0 <= k <= n)%nat -> 0 < p < 1 ->
  unnormalized_posterior n k alpha beta p
    = Some (c_const n k alpha beta
            * (Rpower p (INR k + alpha - 1)
               * Rpower (1 - p) (INR n - INR k + beta - 1))).
Proof.
  intros [_ Hkn] Hp.
  unfold unnormalized_posterior, PDF_Beta.
  rewrite Beta_kernel_interior by exact Hp. simpl. f_equal.
  unfold c_const, L.
  replace (INR k + alpha - 1) with (INR k + (alpha - 1)) by ring.
  replace (INR n - INR k + beta - 1) with (INR (n - k) + (beta - 1))
    by (rewrite minus_INR by exact Hkn; ring).
  rewrite !Rpower_plus, !Rpower_pow by lra. ring.
Qed.

Lemma X15_unnormalized_posterior_kernel_witness :
  unnormalized_posterior 5 3 2 3 (/ 2)
    = Some (c_const 5 3 2 3
            * (Rpower (/ 2) (INR 3 + 2 - 1)
               * Rpower (1 - / 2) (INR 5 - INR 3 + 3 - 1))).
Proof.
  apply (X15_unnormalized_posterior_kernel 5 3 2 3 (/ 2)); [lia | lra].
Defined.

Section Bayes.

Variables (n k : nat) (alpha beta : R).
Hypothesis Halpha : 0 < alpha.
Hypothesis Hbeta : 0 < beta.
Hypothesis Hkn : (0 <= k <= n)%nat.

Lemma unnormalized_posterior_integral :
  is_integral_0_1
    (fun p => density_value (unnormalized_posterior n k alpha beta p))
    (posterior_constant n k alpha beta).
Proof.
  destruct (posterior_parameters_pos n k alpha beta Halpha Hbeta Hkn) as [Ha Hb].
  rewrite <- (Rmult_1_r (posterior_constant n k alpha beta)).
  rewrite <- (Beta_norm_times_integral _ _ Ha Hb).
  set (Cn := Gamma (alpha_posterior k alpha + beta_posterior n k beta)
             / (Gamma (alpha_posterior k alpha) * Gamma (beta_posterior n k beta))).
  apply (is_integral_0_1_ext
           (fun p => posterior_constant n k alpha beta
                     * (Cn * Beta_integrand (alpha_posterior k alpha)
                                            (beta_posterior n k beta) p))).
  - intros x Hx.
    apply (continuity_pt_scal
             (fun p => Cn * Beta_integrand (alpha_posterior k alpha)
                                           (beta_posterior n k beta) p)).
    apply (continuity_pt_scal (Beta_integrand _ _)).
    apply Beta_integrand_continuity; exact Hx.
  - intros x Hx.
    destruct (unnormalized_posterior_is_Beta n k alpha beta Halpha Hbeta Hkn x)
      as (v & Hv & Hu); try lra.
    rewrite Hu. rewrite PDF_Beta_interior in Hv by exact Hx.
    injection Hv as <-. reflexivity.
  - apply is_integral_0_1_scal.
    + intros x Hx. apply (continuity_pt_scal (Beta_integrand _ _)).
      apply Beta_integrand_continuity; exact Hx.
    + apply is_integral_0_1_scal.
      * intros x Hx. apply Beta_integrand_continuity; exact Hx.
      * apply (Beta_spec _ _ Ha Hb).
Qed.

Lemma marginal_is_posterior_constant :
  marginal n k alpha beta = posterior_constant n k alpha beta.
Proof.
  unfold marginal. apply integral_0_1_eq, unnormalized_posterior_integral.
Qed.

Lemma posterior_constant_Beta :
  posterior_constant n k alpha beta
    = binom n k
      * Beta_integral (alpha_posterior k alpha) (beta_posterior n k beta)
      / Beta_integral alpha beta.
Proof.
  destruct (posterior_parameters_pos n k alpha beta Halpha Hbeta Hkn) as [Ha Hb].
  rewrite (Beta_integral_Gamma _ Ha _ Hb), (Beta_integral_Gamma _ Halpha _ Hbeta).
  unfold posterior_constant, c_const, Beta_Gamma.
  pose proof (Gamma_pos _ Halpha). pose proof (Gamma_pos _ Hbeta).
  pose proof (Gamma_pos _ Ha). pose proof (Gamma_pos _ Hb).
  pose proof (Gamma_pos (alpha + beta) ltac:(lra)).
  pose proof (Gamma_pos (alpha_posterior k alpha + beta_posterior n k beta)
                ltac:(lra)).
  field. repeat split; lra.
Qed.

Lemma posterior_density_is_Beta (p : R) :
  0 <= p <= 1 -> (p = 0 -> 1 <= alpha) -> (p = 1 -> 1 <= beta) ->
  posterior_density n k alpha beta p
    = PDF_Beta (alpha_posterior k alpha) (beta_posterior n k beta) p.
Proof.
  intros Hp H0 H1.
  destruct (unnormalized_posterior_is_Beta n k alpha beta Halpha Hbeta Hkn p
              Hp H0 H1) as (v & Hv & Hu).
  pose proof (posterior_constant_pos n k alpha beta Halpha Hbeta Hkn) as Hc.
  unfold posterior_density. rewrite marginal_is_posterior_constant, Hv.
  unfold unnormalized_posterior in Hu.
  destruct (PDF_Beta alpha beta p) as [prior |]; [| discriminate Hu].
  simpl in Hu. injection Hu as Hu. f_equal.
  unfold Rdiv. rewrite (Rmult_comm (L n k p)), Rmult_assoc, Hu.
  field. lra.
Qed.

End Bayes.

(** X16: Bayes' formula with the Beta prior gives the Beta density of the
    updated parameters, exactly: the marginal probability of the data is
    the positive number [binom(n, k) B(k + alpha, n - k + beta) / B(alpha, beta)],
    and likelihood times prior divided by it is the density of
    [Beta(k + alpha, n - k + beta)], at every [p] with [0 < p < 1], at
    [p = 0] when [1 <= alpha] and at [p = 1] when [1 <= beta]. *)
Theorem X16_Bayes_posterior_is_Beta (n k : nat) (alpha beta : R) :
  0 < alpha -> 0 < beta -> (0 <= k <= n)%nat ->
  is_integral_0_1
    (fun p => density_value (unnormalized_posterior n k alpha beta p))
    (marginal n k alpha beta) /\
  0 < marginal n k alpha beta /\
  marginal n k alpha beta
    = binom n k * Beta_integral (INR k + alpha) (INR n - INR k + beta)
      / Beta_integral alpha beta /\
  forall p, 0 <= p <= 1 -> (p = 0 -> 1 <= alpha) -> (p = 1 -> 1 <= beta) ->
    posterior_density n k alpha beta p
      = PDF_Beta (INR k + alpha) (INR n - INR k + beta) p.
Proof.
  intros Ha Hb Hkn.
  rewrite (marginal_is_posterior_constant n k alpha beta Ha Hb Hkn).
  split; [apply unnormalized_posterior_integral; assumption |].
  split; [apply posterior_constant_pos; assumption |].
  split; [apply posterior_constant_Beta; assumption |].
  intros p Hp H0 H1.
  apply (posterior_density_is_Beta n k alpha beta Ha Hb Hkn p Hp H0 H1).
Qed.

Lemma X16_Bayes_posterior_is_Beta_witness :
  is_integral_0_1
    (fun p => density_value (unnormalized_posterior 5 3 2 3 p))
    (marginal 5 3 2 3) /\
  0 < marginal 5 3 2 3 /\
  marginal 5 3 2 3
    = binom 5 3 * Beta_integral (INR 3 + 2) (INR 5 - INR 3 + 3)
      / Beta_integral 2 3 /\
  forall p, 0 <= p <= 1 -> (p = 0 -> 1 <= 2) -> (p = 1 -> 1 <= 3) ->
    posterior_density 5 3 2 3 p
      = PDF_Beta (INR 3 + 2) (INR 5 - INR 3 + 3) p.
Proof. apply (X16_Bayes_posterior_is_Beta 5 3 2 3); [lra | lra | lia]. Defined.

(** ** Updates by several batches *)

Lemma posterior_update_twice (n1 k1 n2 k2 : nat) (prior : R * R) :
  posterior_update n2 k2 (posterior_update n1 k1 prior)
    = posterior_update (n1 + n2) (k1 + k2) prior.
Proof.
  destruct prior as [a b].
  unfold posterior_update, alpha_posterior, beta_posterior; simpl.
  rewrite !plus_INR. f_equal; ring.
Qed.

Lemma posterior_updates_total (obs : list (nat * nat)) (prior : R * R) :
  posterior_updates obs prior
    = posterior_update (total_trials obs) (total_successes obs) prior.
Proof.
  revert prior. induction obs as [| o obs IH]; intros prior.
  - destruct prior as [a b].
    unfold posterior_updates, posterior_update, alpha_posterior, beta_posterior.
    simpl. f_equal; ring.
  - change (posterior_updates (o :: obs) prior)
      with (posterior_updates obs (posterior_update (fst o) (snd o) prior)).
    rewrite IH, posterior_update_twice. reflexivity.
Qed.

Lemma total_trials_app (l1 l2 : list (nat * nat)) :
  total_trials (l1 ++ l2) = (total_trials l1 + total_trials l2)%nat.
Proof. induction l1 as [| o l1 IH]; simpl; [reflexivity | rewrite IH; lia]. Qed.

Lemma total_successes_app (l1 l2 : list (nat * nat)) :
  total_successes (l1 ++ l2) = (total_successes l1 + total_successes l2)%nat.
Proof. induction l1 as [| o l1 IH]; simpl; [reflexivity | rewrite IH; lia]. Qed.

(** X17: updating batch after batch gives the same parameters as one
    update with all the trials and all the successes, so the batches may
    be split and reordered at will; no observation leaves the prior
    unchanged. *)
Theorem X17_updates_by_batches (obs1 obs2 : list (nat * nat)) (prior : R * R) :
  posterior_updates (obs1 ++ obs2) prior
    = posterior_update (total_trials obs1 + total_trials obs2)
                       (total_successes obs1 + total_successes obs2) prior /\
  posterior_updates (obs1 ++ obs2) prior = posterior_updates (obs2 ++ obs1) prior /\
  posterior_updates (obs1 ++ obs2) prior
    = posterior_updates obs2 (posterior_updates obs1 prior) /\
  posterior_updates [] prior = prior.
Proof.
  split; [| split; [| split]].
  - rewrite posterior_updates_total, total_trials_app, total_successes_app.
    reflexivity.
  - rewrite !posterior_updates_total, !total_trials_app, !total_successes_app.
    rewrite (Nat.add_comm (total_trials obs2)),
      (Nat.add_comm (total_successes obs2)).
    reflexivity.
  - unfold posterior_updates. apply fold_left_app.
  - reflexivity.
Qed.

(** ** The MAP between the prior and the data *)

(** X18: the MAP of the posterior is a weighted mean of the maximum
    likelihood estimate and the MAP of the prior, with the weight
    [n / (n + alpha + beta - 2)] on the data: it lies between the two,
    and the weight of the data grows with the number of trials. *)
Theorem X18_posterior_MAP_is_a_weighted_mean (n k : nat) (alpha beta : R) :
  (0 < n)%nat -> 2 < alpha + beta ->
  let w := INR n / (INR n + alpha + beta - 2) in
  0 < w < 1 /\
  MAP (fst (posterior_update n k (alpha, beta)))
      (snd (posterior_update n k (alpha, beta)))
    = w * MLE n k + (1 - w) * MAP alpha beta /\
  Rmin (MLE n k) (MAP alpha beta)
    <= MAP (INR k + alpha) (INR n - INR k + beta)
    <= Rmax (MLE n k) (MAP alpha beta).
Proof.
  intros Hn Hab w.
  assert (H0 : 0 < INR n) by (apply lt_0_INR; exact Hn).
  assert (Hw : 0 < w < 1).
  { unfold w. split.
    - apply Rdiv_lt_0_compat; lra.
    - apply Rmult_lt_reg_r with (INR n + alpha + beta - 2); [lra |].
      unfold Rdiv. rewrite Rmult_assoc, Rinv_l by lra. lra. }
  assert (E : MAP (INR k + alpha) (INR n - INR k + beta)
              = w * MLE n k + (1 - w) * MAP alpha beta).
  { unfold w, MAP, MLE. field. lra. }
  split; [exact Hw | split; [exact E |]].
  rewrite E.
  pose proof (Rmin_l (MLE n k) (MAP alpha beta)).
  pose proof (Rmin_r (MLE n k) (MAP alpha beta)).
  pose proof (Rmax_l (MLE n k) (MAP alpha beta)).
  pose proof (Rmax_r (MLE n k) (MAP alpha beta)).
  split; nra.
Qed.

Lemma X18_posterior_MAP_is_a_weighted_mean_witness :
  let w := INR 5 / (INR 5 + 2 + 3 - 2) in
  0 < w < 1 /\
  MAP (fst (posterior_update 5 5 (2, 3))) (snd (posterior_update 5 5 (2, 3)))
    = w * MLE 5 5 + (1 - w) * MAP 2 3 /\
  Rmin (MLE 5 5) (MAP 2 3)
    <= MAP (INR 5 + 2) (INR 5 - INR 5 + 3)
    <= Rmax (MLE 5 5) (MAP 2 3).
Proof.
  apply (X18_posterior_MAP_is_a_weighted_mean 5 5 2 3); [lia | lra].
Defined.

(** ** Only successes *)

Lemma L_all_successes (n : nat) (p : R) : L n n p = p ^ n.
Proof.
  unfold L, binom. rewrite Nat.sub_diag. simpl.
  pose proof (INR_fact_lt_0 n). field. lra.
Qed.

Lemma pow_lt_decreasing (p : R) (n m : nat) :
  0 < p < 1 -> (n < m)%nat -> p ^ m < p ^ n.
Proof.
  intros Hp Hnm.
  replace m with (n + (m - n))%nat by lia. rewrite pow_add.
  assert (H1 : 0 < p ^ n) by (apply pow_lt; lra).
  assert (H2 : p ^ (m - n) < 1) by (apply pow_lt_1_strict; [lra | lia]).
  rewrite <- (Rmult_1_r (p ^ n)) at 2.
  apply Rmult_lt_compat_l; assumption.
Qed.

(** X19: when every trial is a success the maximum likelihood estimate
    is [1] however few the trials, while the Beta density of the counts
    is [(n + 1) p^n]: positive at every [p > 0], largest at [p = 1], and,
    relative to its value at [1], smaller at every [p < 1] the more trials
    there are. *)
Theorem X19_only_successes (n m : nat) (p : R) :
  (0 < n)%nat -> (n < m)%nat -> 0 < p < 1 ->
  MLE n n = 1 /\
  PDF_Beta (fst (Beta_of_counts n 0)) (snd (Beta_of_counts n 0)) p
    = Some ((INR n + 1) * p ^ n) /\
  PDF_Beta (fst (Beta_of_counts n 0)) (snd (Beta_of_counts n 0)) 1
    = Some (INR n + 1) /\
  0 < (INR n + 1) * p ^ n < INR n + 1 /\
  p ^ m < p ^ n.
Proof.
  intros Hn Hnm Hp.
  assert (H0 : 0 < INR n) by (apply lt_0_INR; exact Hn).
  assert (Hpdf : forall x, 0 <= x <= 1 ->
            PDF_Beta (fst (Beta_of_counts n 0)) (snd (Beta_of_counts n 0)) x
              = Some ((INR n + 1) * x ^ n)).
  { intros x Hx. unfold Beta_of_counts. simpl fst. simpl snd.
    pose proof (PDF_Beta_counts n n ltac:(lia) x Hx) as H.
    rewrite Nat.sub_diag, L_all_successes in H. exact H. }
  assert (H1 : 0 < p ^ n) by (apply pow_lt; lra).
  assert (H2 : p ^ n < 1) by (apply pow_lt_1_strict; [lra | exact Hn]).
  split; [unfold MLE; field; lra |].
  split; [apply Hpdf; lra |].
  split; [rewrite Hpdf by lra; rewrite pow1; f_equal; ring |].
  split; [split; nra |].
  apply pow_lt_decreasing; assumption.
Qed.

Lemma X19_only_successes_witness :
  MLE 5 5 = 1 /\
  PDF_Beta (fst (Beta_of_counts 5 0)) (snd (Beta_of_counts 5 0)) (/ 2)
    = Some ((INR 5 + 1) * (/ 2) ^ 5) /\
  PDF_Beta (fst (Beta_of_counts 5 0)) (snd (Beta_of_counts 5 0)) 1
    = Some (INR 5 + 1) /\
  0 < (INR 5 + 1) * (/ 2) ^ 5 < INR 5 + 1 /\
  (/ 2) ^ 20 < (/ 2) ^ 5.
Proof. apply (X19_only_successes 5 20 (/ 2)); [lia | lia | lra]. Defined.
